(** * fluent-command: the builder, the executor and the result projector

    A shallow embedding of [src/command.ts] (class [FluentCommand]).  The
    private fields of the class become the fields of one record that every
    method takes and returns; what a method does to the outside world
    (calling an observer, writing to the streams of the controlling process,
    creating the child process) is returned as a list of [Effect]s. *)

From Stdlib Require Import String Ascii List NArith ZArith Bool Lia.
Import ListNotations.

Set Implicit Arguments.

(** ** JavaScript strings

    A JavaScript string is a sequence of UTF-16 code units. *)

Definition JsString := list N.

(** A string literal of the source, its characters taken as code units. *)
Definition lit (s : string) : JsString :=
  map N_of_ascii (list_ascii_of_string s).

(** [WhiteSpace] and [LineTerminator] of ECMAScript, the code units that
    [String.prototype.trimEnd] removes. *)
Definition isWhiteSpace (c : N) : bool :=
  ((9 <=? c) && (c <=? 13)            (* TAB, LF, VT, FF, CR *)
   || (c =? 32)                       (* SP *)
   || (c =? 160)                      (* NBSP *)
   || (c =? 5760)                     (* U+1680 *)
   || ((8192 <=? c) && (c <=? 8202))  (* U+2000 .. U+200A *)
   || (c =? 8232) || (c =? 8233)      (* LS, PS *)
   || (c =? 8239)                     (* U+202F *)
   || (c =? 8287)                     (* U+205F *)
   || (c =? 12288)                    (* U+3000 *)
   || (c =? 65279))%N.                (* U+FEFF *)

(** [s.trimEnd()] *)
Fixpoint trimEnd (s : JsString) : JsString :=
  match s with
  | [] => []
  | c :: rest =>
      match trimEnd rest with
      | [] => if isWhiteSpace c then [] else [c]
      | kept => c :: kept
      end
  end.

(** ["-".repeat(dashes)] *)
Definition repeatDash (dashes : nat) : JsString := repeat 45%N dashes.

(** ** JavaScript numbers

    [optionValue.toString()] is the only operation the class performs on a
    number passed as an option value, so numbers are any type with it. *)

Class JsNumber (num : Type) := { toString : num -> JsString }.

(** Integers below 10^21 in absolute value print in decimal. *)
Fixpoint digitsOf (fuel : nat) (n : N) (acc : JsString) : JsString :=
  match fuel with
  | O => acc
  | S fuel' =>
      let acc' := (48 + n mod 10)%N :: acc in
      if (n / 10 =? 0)%N then acc' else digitsOf fuel' (n / 10)%N acc'
  end.

Definition decimal (z : Z) : JsString :=
  let mag := Z.to_N (Z.abs z) in
  let ds := digitsOf (S (N.to_nat (N.log2 mag))) mag [] in
  if (z <? 0)%Z then 45%N :: ds else ds.

#[export] Instance Z_JsNumber : JsNumber Z := {| toString := decimal |}.

(** ** Types of the module *)

(** [NodeJS.Signals], the name of a signal. *)
Definition Signals := JsString.

Module SpawnInfo.
Record t := {
  executable : JsString;
  commandArgs : list JsString;
  cwd : JsString
}.
End SpawnInfo.

Module FluentCommandSuccess.
Record t := {
  executable : JsString;
  commandArgs : list JsString;
  cwd : JsString;
  duration : Z;
  output : JsString;
  stderr : JsString;
  stdout : JsString
}.
End FluentCommandSuccess.

(** [FluentCommandSuccess & { code?: number; signal?: NodeJS.Signals }];
    an optional property that was not assigned is [None]. *)
Module FluentCommandError.
Record t := {
  success : FluentCommandSuccess.t;
  code : option Z;
  signal : option Signals
}.
End FluentCommandError.

(** Observers are functions of the caller.  The class only stores them and
    calls them, so a function is named by an identifier and each call is
    recorded as an [Effect]; an observer is taken not to call back into the
    command it observes, nor to change the array of arguments it is shown. *)
Definition OutputHandler := nat.
Definition SpawnHandler := nat.

(** ["stdout" | "stderr"] *)
Inductive Source := Stdout | Stderr.

Inductive Effect :=
| CallOutput (handler : OutputHandler) (chunk : JsString)
    (* handler(chunk) *)
| CallSpawn (handler : SpawnHandler) (info : SpawnInfo.t)
    (* spawnHandler({executable, commandArgs, cwd}) *)
| ProcessWrite (source : Source) (chunk : JsString)
    (* process[source].write(chunk) *)
| SpawnProcess (info : SpawnInfo.t).
    (* spawn(executable, commandArgs, {cwd, windowsHide: true}) *)

(** [optionValue?: string | number] *)
Inductive OptionValue (num : Type) :=
| undefined
| str (s : JsString)
| number (n : num).
Arguments undefined {num}.
Arguments str {num} s.
Arguments number {num} n.

(** What a promise is rejected with, as far as the error mapper looks at it:
    [err != null], [typeof err === "object"], ["code" in err],
    [typeof err.code === "string"] and the text of [err.message]. *)
Inductive CodeProperty :=
| CodeMissing
| CodeString (s : JsString)
| CodeNotString.

Inductive Rejection :=
| RejUndefined
| RejNull
| RejPrimitive
| RejObject (code : CodeProperty) (message : JsString).

(** The events of the child process that [#runOrRead] listens to. *)
Inductive ProcEvent :=
| EvSpawn
| EvData (source : Source) (chunk : JsString)
| EvError (err : Rejection)
| EvClose (code : option Z) (signal : option Signals).

(** What the executor reads from its environment when it starts:
    [performance.now()] and [cwd()] of [node:process]. *)
Record Env := {
  now : Z;
  processCwd : JsString
}.

Definition SPAWN_MISSING_EXE_CODE : Z := (-2)%Z.

(** ** Path resolution

    [resolve] of the package pathe, imported as [resolvePath], is an external
    collaborator: the sources hold its call and not its code.  This module
    is a model of it after section 6 of the specification, for paths with
    [/] as separator. *)

Module Path.

Definition slash : N := 47.
Definition dot : JsString := [46%N].
Definition dotdot : JsString := [46%N; 46%N].

(** Modelled from the spec: an absolute fragment, one that starts at the
    root. *)
Definition isAbsolute (p : JsString) : bool :=
  match p with
  | c :: _ => (c =? slash)%N
  | [] => false
  end.

(** Modelled from the spec: the pieces of a path between its separators. *)
Fixpoint segments (p : JsString) : list JsString :=
  match p with
  | [] => [[]]
  | c :: rest =>
      if (c =? slash)%N then [] :: segments rest
      else match segments rest with
           | [] => [[c]]
           | s :: ss => (c :: s) :: ss
           end
  end.

Definition eqb (a b : JsString) : bool :=
  if list_eq_dec N.eq_dec a b then true else false.

(** Modelled from the spec: normalisation.  It walks the segments with the
    directories entered so far, innermost first: an empty segment and [.]
    stay where they are, [..] leaves one directory, a name enters one. *)
Fixpoint walk (entered : list JsString) (segs : list JsString)
  : list JsString :=
  match segs with
  | [] => entered
  | s :: rest =>
      if eqb s [] || eqb s dot then walk entered rest
      else if eqb s dotdot then walk (tl entered) rest
      else walk (s :: entered) rest
  end.

(** Modelled from the spec: one normalize-and-join step.  "Each fragment is
    resolved relative to the result of the previous step and an absolute
    fragment discards everything computed before it." *)
Definition joinStep (entered : list JsString) (fragment : JsString)
  : list JsString :=
  walk (if isAbsolute fragment then [] else entered) (segments fragment).

(** Modelled from the spec: the normalized absolute path of the directories
    entered, innermost first. *)
Definition render (entered : list JsString) : JsString :=
  match entered with
  | [] => [slash]
  | _ => concat (map (fun s => slash :: s) (rev entered))
  end.

(** A segment without separator, and the name of a directory: such a
    segment that is not empty, [.] or [..]. *)
Definition plain (s : JsString) : bool :=
  forallb (fun c => negb (c =? slash)%N) s.

Definition named (s : JsString) : bool :=
  negb (eqb s [] || eqb s dot || eqb s dotdot) && plain s.

(** Modelled from the spec: the path-resolution utility, which is not part
    of the sources.  "A pure function taking a base path and zero or more
    additional path fragments, returning one normalized absolute path,
    where each fragment is resolved relative to the result of the previous
    step and an absolute fragment discards everything computed before it."
    A base that is not absolute is taken from the root; the class passes
    the current directory of the process, which Node reports absolute. *)
Definition resolvePath (base : JsString) (fragments : list JsString)
  : JsString :=
  render (fold_left joinStep (base :: fragments) []).

End Path.

(** ** The class [FluentCommand] *)

Module FluentCommand.

(** The private fields.  [startTime] and the duration of an outcome are
    readings of [performance.now()], taken here as whole ticks of that
    clock. *)
Record t := {
  executable : JsString;
  commandArgs : list JsString;
  startTime : Z;
  stdoutContents : JsString;
  stderrContents : JsString;
  outputContents : JsString;
  code : option Z;
  signal : option Signals;
  cwdPath : JsString;
  extraCwdPathPieces : list JsString;
  resolvedCwd : JsString;
  spawnHandler : option SpawnHandler;
  stdoutHandler : option OutputHandler;
  stderrHandler : option OutputHandler;
  outputHandler : option OutputHandler;
  shouldBeSilent : bool
}.

(** Assignments to one field. *)
Definition with_commandArgs v (this : t) : t :=
  {| executable := executable this; commandArgs := v;
     startTime := startTime this; stdoutContents := stdoutContents this;
     stderrContents := stderrContents this;
     outputContents := outputContents this; code := code this;
     signal := signal this; cwdPath := cwdPath this;
     extraCwdPathPieces := extraCwdPathPieces this;
     resolvedCwd := resolvedCwd this; spawnHandler := spawnHandler this;
     stdoutHandler := stdoutHandler this;
     stderrHandler := stderrHandler this;
     outputHandler := outputHandler this;
     shouldBeSilent := shouldBeSilent this |}.

Definition with_startTime v (this : t) : t :=
  {| executable := executable this; commandArgs := commandArgs this;
     startTime := v; stdoutContents := stdoutContents this;
     stderrContents := stderrContents this;
     outputContents := outputContents this; code := code this;
     signal := signal this; cwdPath := cwdPath this;
     extraCwdPathPieces := extraCwdPathPieces this;
     resolvedCwd := resolvedCwd this; spawnHandler := spawnHandler this;
     stdoutHandler := stdoutHandler this;
     stderrHandler := stderrHandler this;
     outputHandler := outputHandler this;
     shouldBeSilent := shouldBeSilent this |}.

Definition with_stdoutContents v (this : t) : t :=
  {| executable := executable this; commandArgs := commandArgs this;
     startTime := startTime this; stdoutContents := v;
     stderrContents := stderrContents this;
     outputContents := outputContents this; code := code this;
     signal := signal this; cwdPath := cwdPath this;
     extraCwdPathPieces := extraCwdPathPieces this;
     resolvedCwd := resolvedCwd this; spawnHandler := spawnHandler this;
     stdoutHandler := stdoutHandler this;
     stderrHandler := stderrHandler this;
     outputHandler := outputHandler this;
     shouldBeSilent := shouldBeSilent this |}.

Definition with_stderrContents v (this : t) : t :=
  {| executable := executable this; commandArgs := commandArgs this;
     startTime := startTime this; stdoutContents := stdoutContents this;
     stderrContents := v;
     outputContents := outputContents this; code := code this;
     signal := signal this; cwdPath := cwdPath this;
     extraCwdPathPieces := extraCwdPathPieces this;
     resolvedCwd := resolvedCwd this; spawnHandler := spawnHandler this;
     stdoutHandler := stdoutHandler this;
     stderrHandler := stderrHandler this;
     outputHandler := outputHandler this;
     shouldBeSilent := shouldBeSilent this |}.

Definition with_outputContents v (this : t) : t :=
  {| executable := executable this; commandArgs := commandArgs this;
     startTime := startTime this; stdoutContents := stdoutContents this;
     stderrContents := stderrContents this;
     outputContents := v; code := code this;
     signal := signal this; cwdPath := cwdPath this;
     extraCwdPathPieces := extraCwdPathPieces this;
     resolvedCwd := resolvedCwd this; spawnHandler := spawnHandler this;
     stdoutHandler := stdoutHandler this;
     stderrHandler := stderrHandler this;
     outputHandler := outputHandler this;
     shouldBeSilent := shouldBeSilent this |}.

Definition with_code v (this : t) : t :=
  {| executable := executable this; commandArgs := commandArgs this;
     startTime := startTime this; stdoutContents := stdoutContents this;
     stderrContents := stderrContents this;
     outputContents := outputContents this; code := v;
     signal := signal this; cwdPath := cwdPath this;
     extraCwdPathPieces := extraCwdPathPieces this;
     resolvedCwd := resolvedCwd this; spawnHandler := spawnHandler this;
     stdoutHandler := stdoutHandler this;
     stderrHandler := stderrHandler this;
     outputHandler := outputHandler this;
     shouldBeSilent := shouldBeSilent this |}.

Definition with_signal v (this : t) : t :=
  {| executable := executable this; commandArgs := commandArgs this;
     startTime := startTime this; stdoutContents := stdoutContents this;
     stderrContents := stderrContents this;
     outputContents := outputContents this; code := code this;
     signal := v; cwdPath := cwdPath this;
     extraCwdPathPieces := extraCwdPathPieces this;
     resolvedCwd := resolvedCwd this; spawnHandler := spawnHandler this;
     stdoutHandler := stdoutHandler this;
     stderrHandler := stderrHandler this;
     outputHandler := outputHandler this;
     shouldBeSilent := shouldBeSilent this |}.

Definition with_cwdPath v (this : t) : t :=
  {| executable := executable this; commandArgs := commandArgs this;
     startTime := startTime this; stdoutContents := stdoutContents this;
     stderrContents := stderrContents this;
     outputContents := outputContents this; code := code this;
     signal := signal this; cwdPath := v;
     extraCwdPathPieces := extraCwdPathPieces this;
     resolvedCwd := resolvedCwd this; spawnHandler := spawnHandler this;
     stdoutHandler := stdoutHandler this;
     stderrHandler := stderrHandler this;
     outputHandler := outputHandler this;
     shouldBeSilent := shouldBeSilent this |}.

Definition with_extraCwdPathPieces v (this : t) : t :=
  {| executable := executable this; commandArgs := commandArgs this;
     startTime := startTime this; stdoutContents := stdoutContents this;
     stderrContents := stderrContents this;
     outputContents := outputContents this; code := code this;
     signal := signal this; cwdPath := cwdPath this;
     extraCwdPathPieces := v;
     resolvedCwd := resolvedCwd this; spawnHandler := spawnHandler this;
     stdoutHandler := stdoutHandler this;
     stderrHandler := stderrHandler this;
     outputHandler := outputHandler this;
     shouldBeSilent := shouldBeSilent this |}.

Definition with_resolvedCwd v (this : t) : t :=
  {| executable := executable this; commandArgs := commandArgs this;
     startTime := startTime this; stdoutContents := stdoutContents this;
     stderrContents := stderrContents this;
     outputContents := outputContents this; code := code this;
     signal := signal this; cwdPath := cwdPath this;
     extraCwdPathPieces := extraCwdPathPieces this;
     resolvedCwd := v; spawnHandler := spawnHandler this;
     stdoutHandler := stdoutHandler this;
     stderrHandler := stderrHandler this;
     outputHandler := outputHandler this;
     shouldBeSilent := shouldBeSilent this |}.

Definition with_spawnHandler v (this : t) : t :=
  {| executable := executable this; commandArgs := commandArgs this;
     startTime := startTime this; stdoutContents := stdoutContents this;
     stderrContents := stderrContents this;
     outputContents := outputContents this; code := code this;
     signal := signal this; cwdPath := cwdPath this;
     extraCwdPathPieces := extraCwdPathPieces this;
     resolvedCwd := resolvedCwd this; spawnHandler := v;
     stdoutHandler := stdoutHandler this;
     stderrHandler := stderrHandler this;
     outputHandler := outputHandler this;
     shouldBeSilent := shouldBeSilent this |}.

Definition with_stdoutHandler v (this : t) : t :=
  {| executable := executable this; commandArgs := commandArgs this;
     startTime := startTime this; stdoutContents := stdoutContents this;
     stderrContents := stderrContents this;
     outputContents := outputContents this; code := code this;
     signal := signal this; cwdPath := cwdPath this;
     extraCwdPathPieces := extraCwdPathPieces this;
     resolvedCwd := resolvedCwd this; spawnHandler := spawnHandler this;
     stdoutHandler := v;
     stderrHandler := stderrHandler this;
     outputHandler := outputHandler this;
     shouldBeSilent := shouldBeSilent this |}.

Definition with_stderrHandler v (this : t) : t :=
  {| executable := executable this; commandArgs := commandArgs this;
     startTime := startTime this; stdoutContents := stdoutContents this;
     stderrContents := stderrContents this;
     outputContents := outputContents this; code := code this;
     signal := signal this; cwdPath := cwdPath this;
     extraCwdPathPieces := extraCwdPathPieces this;
     resolvedCwd := resolvedCwd this; spawnHandler := spawnHandler this;
     stdoutHandler := stdoutHandler this;
     stderrHandler := v;
     outputHandler := outputHandler this;
     shouldBeSilent := shouldBeSilent this |}.

Definition with_outputHandler v (this : t) : t :=
  {| executable := executable this; commandArgs := commandArgs this;
     startTime := startTime this; stdoutContents := stdoutContents this;
     stderrContents := stderrContents this;
     outputContents := outputContents this; code := code this;
     signal := signal this; cwdPath := cwdPath this;
     extraCwdPathPieces := extraCwdPathPieces this;
     resolvedCwd := resolvedCwd this; spawnHandler := spawnHandler this;
     stdoutHandler := stdoutHandler this;
     stderrHandler := stderrHandler this;
     outputHandler := v;
     shouldBeSilent := shouldBeSilent this |}.

Definition with_shouldBeSilent v (this : t) : t :=
  {| executable := executable this; commandArgs := commandArgs this;
     startTime := startTime this; stdoutContents := stdoutContents this;
     stderrContents := stderrContents this;
     outputContents := outputContents this; code := code this;
     signal := signal this; cwdPath := cwdPath this;
     extraCwdPathPieces := extraCwdPathPieces this;
     resolvedCwd := resolvedCwd this; spawnHandler := spawnHandler this;
     stdoutHandler := stdoutHandler this;
     stderrHandler := stderrHandler this;
     outputHandler := outputHandler this;
     shouldBeSilent := v |}.

(** [constructor(executable, ...initialArgs)], with the initial values of
    the field declarations. *)
Definition constructor (executable : JsString)
    (initialArgs : list JsString) : t :=
  {| executable := executable; commandArgs := initialArgs;
     startTime := 0; stdoutContents := []; stderrContents := [];
     outputContents := []; code := None; signal := None;
     cwdPath := []; extraCwdPathPieces := []; resolvedCwd := [];
     spawnHandler := None; stdoutHandler := None; stderrHandler := None;
     outputHandler := None; shouldBeSilent := true |}.

(** [#addArgs]: [this.#commandArgs.push(...extraArgs)] *)
Definition addArgs (extraArgs : list JsString) (this : t) : t :=
  with_commandArgs (commandArgs this ++ extraArgs) this.

(** [#addOptionPair] *)
Definition addOptionPair {num} `{JsNumber num} (dashes : nat)
    (optionKey : JsString) (optionValue : OptionValue num) (this : t) : t :=
  let this :=
    if (0 <? length optionKey)%nat then
      let dashedOption := repeatDash dashes ++ optionKey in
      addArgs [dashedOption] this
    else this in
  match optionValue with
  | str s => if (0 <? length s)%nat then addArgs [s] this else this
  | number n => addArgs [toString n] this
  | undefined => this
  end.

(** [#commandSuccess]; [now] is the reading of [performance.now()]. *)
Definition commandSuccess (now : Z) (this : t) : FluentCommandSuccess.t :=
  {| FluentCommandSuccess.stdout := trimEnd (stdoutContents this);
     FluentCommandSuccess.stderr := trimEnd (stderrContents this);
     FluentCommandSuccess.output := trimEnd (outputContents this);
     FluentCommandSuccess.executable := executable this;
     FluentCommandSuccess.commandArgs := commandArgs this;
     FluentCommandSuccess.cwd := resolvedCwd this;
     FluentCommandSuccess.duration := (now - startTime this)%Z |}.

(** [#commandError] *)
Definition commandError (now : Z) (this : t) : FluentCommandError.t :=
  {| FluentCommandError.success := commandSuccess now this;
     FluentCommandError.code := code this;
     FluentCommandError.signal := signal this |}.

Definition callIf (handler : option OutputHandler) (chunk : JsString)
  : list Effect :=
  match handler with
  | Some h => [CallOutput h chunk]
  | None => []
  end.

(** [#onChunk] *)
Definition onChunk (source : Source) (chunk : JsString) (this : t)
  : t * list Effect :=
  let '(handler, this) :=
    match source with
    | Stdout =>
        (stdoutHandler this,
         with_stdoutContents (stdoutContents this ++ chunk) this)
    | Stderr =>
        (stderrHandler this,
         with_stderrContents (stderrContents this ++ chunk) this)
    end in
  let this := with_outputContents (outputContents this ++ chunk) this in
  (this,
   callIf handler chunk
     ++ callIf (outputHandler this) chunk
     ++ (if negb (shouldBeSilent this) then [ProcessWrite source chunk]
         else [])).

Definition spawnInfo (this : t) : SpawnInfo.t :=
  {| SpawnInfo.executable := executable this;
     SpawnInfo.commandArgs := commandArgs this;
     SpawnInfo.cwd := resolvedCwd this |}.

(** [#onSpawn], the listener of the [spawn] event *)
Definition priv_onSpawn (this : t) : list Effect :=
  match spawnHandler this with
  | Some h => [CallSpawn h (spawnInfo this)]
  | None => []
  end.

(** *** [#runOrRead]

    [ResultAsync.fromThrowable(fn, errorFn)]: [fn] makes a promise, and
    the result is [Ok] of the value it is resolved with or [Err] of what
    [errorFn] makes of the value it is rejected with.  A promise is
    settled once; [resolve] and [reject] do nothing afterwards.  The
    model runs [errorFn] at the call of [reject] that settles the
    promise. *)

Inductive Result :=
| Ok (value : FluentCommandSuccess.t)
| Err (error : FluentCommandError.t).

Record Running := {
  this_of : t;
  result : option Result   (* [None] while the promise is pending *)
}.

(** The body of the promise up to the registration of the listeners. *)
Definition start (env : Env) (this : t) : Running * list Effect :=
  let this := with_startTime (now env) this in
  let this :=
    with_resolvedCwd
      (Path.resolvePath (Path.resolvePath (processCwd env) [])
         (cwdPath this :: extraCwdPathPieces this)) this in
  ({| this_of := this; result := None |}, [SpawnProcess (spawnInfo this)]).

(** The error mapper, second argument of [fromThrowable]. *)
Definition errorMapper (now : Z) (err : Rejection) (this : t)
  : t * list Effect * FluentCommandError.t :=
  match err with
  | RejObject (CodeString errCode) message =>
      let this := with_code (Some SPAWN_MISSING_EXE_CODE) this in
      let '(this, effects) :=
        onChunk Stderr (errCode ++ lit ": " ++ message) this in
      (this, effects, commandError now this)
  | _ => (this, [], commandError now this)
  end.

Definition resolve (value : FluentCommandSuccess.t) (r : Running)
  : Running :=
  match result r with
  | Some _ => r
  | None => {| this_of := this_of r; result := Some (Ok value) |}
  end.

Definition reject (now : Z) (err : Rejection) (r : Running)
  : Running * list Effect :=
  match result r with
  | Some _ => (r, [])
  | None =>
      let '(this, effects, error) := errorMapper now err (this_of r) in
      ({| this_of := this; result := Some (Err error) |}, effects)
  end.

(** The listeners: what one event of the child process does.  [now] is
    the reading of [performance.now()] when the event is handled. *)
Definition handle (now : Z) (ev : ProcEvent) (r : Running)
  : Running * list Effect :=
  match ev with
  | EvData source chunk =>
      let '(this, effects) := onChunk source chunk (this_of r) in
      ({| this_of := this; result := result r |}, effects)
  | EvSpawn => (r, priv_onSpawn (this_of r))
  | EvError err => reject now err r
  | EvClose code signal =>
      let this := with_signal signal (with_code code (this_of r)) in
      let r := {| this_of := this; result := result r |} in
      match code with
      | Some 0%Z => (resolve (commandSuccess now this) r, [])
      | _ => reject now RejUndefined r
      end
  end.

(** The events of one execution in the order of their delivery, each with
    the clock reading at its delivery. *)
Fixpoint deliver (events : list (Z * ProcEvent)) (r : Running)
  : Running * list Effect :=
  match events with
  | [] => (r, [])
  | (now, ev) :: rest =>
      let '(r, effects) := handle now ev r in
      let '(r, later) := deliver rest r in
      (r, effects ++ later)
  end.

Definition runOrRead (env : Env) (events : list (Z * ProcEvent)) (this : t)
  : Running * list Effect :=
  let '(r, effects) := start env this in
  let '(r, later) := deliver events r in
  (r, effects ++ later).

(** *** The public methods; each returns [this] *)

Definition args (anArg : JsString) (extraArgs : list JsString) (this : t)
  : t :=
  addArgs (anArg :: extraArgs) this.

Definition cwd (cwdPath : JsString) (extraCwdPathPieces : list JsString)
    (this : t) : t :=
  with_extraCwdPathPieces extraCwdPathPieces (with_cwdPath cwdPath this).

Definition opt {num} `{JsNumber num} (optionKey : JsString)
    (optionValue : OptionValue num) (this : t) : t :=
  addOptionPair 1 optionKey optionValue this.

Definition onSpawn (spawnHandler : SpawnHandler) (this : t) : t :=
  with_spawnHandler (Some spawnHandler) this.

Definition onStdout (stdoutHandler : OutputHandler) (this : t) : t :=
  with_stdoutHandler (Some stdoutHandler) this.

Definition onStderr (stderrHandler : OutputHandler) (this : t) : t :=
  with_stderrHandler (Some stderrHandler) this.

Definition onOutput (outputHandler : OutputHandler) (this : t) : t :=
  with_outputHandler (Some outputHandler) this.

Definition run (env : Env) (events : list (Z * ProcEvent)) (this : t)
  : Running * list Effect :=
  runOrRead env events (with_shouldBeSilent false this).

Definition read (env : Env) (events : list (Z * ProcEvent)) (this : t)
  : Running * list Effect :=
  runOrRead env events (with_shouldBeSilent true this).

Definition option {num} `{JsNumber num} (optionKey : JsString)
    (optionValue : OptionValue num) (this : t) : t :=
  addOptionPair 2 optionKey optionValue this.

End FluentCommand.

(** [fcmd(...args)] *)
Definition fcmd (executable : JsString) (initialArgs : list JsString)
  : FluentCommand.t :=
  FluentCommand.constructor executable initialArgs.

(** ** Chains of builder calls *)

Inductive BuilderCall (num : Type) :=
| CallArgs (anArg : JsString) (extraArgs : list JsString)
| CallOpt (optionKey : JsString) (optionValue : OptionValue num)
| CallOption (optionKey : JsString) (optionValue : OptionValue num)
| CallCwd (cwdPath : JsString) (extraCwdPathPieces : list JsString)
| CallOnSpawn (handler : SpawnHandler)
| CallOnStdout (handler : OutputHandler)
| CallOnStderr (handler : OutputHandler)
| CallOnOutput (handler : OutputHandler).
Arguments CallArgs {num} anArg extraArgs.
Arguments CallCwd {num} cwdPath extraCwdPathPieces.
Arguments CallOnSpawn {num} handler.
Arguments CallOnStdout {num} handler.
Arguments CallOnStderr {num} handler.
Arguments CallOnOutput {num} handler.

Definition call {num} `{JsNumber num} (c : BuilderCall num)
    (this : FluentCommand.t) : FluentCommand.t :=
  match c with
  | CallArgs a rest => FluentCommand.args a rest this
  | CallOpt k v => FluentCommand.opt k v this
  | CallOption k v => FluentCommand.option k v this
  | CallCwd p ps => FluentCommand.cwd p ps this
  | CallOnSpawn h => FluentCommand.onSpawn h this
  | CallOnStdout h => FluentCommand.onStdout h this
  | CallOnStderr h => FluentCommand.onStderr h this
  | CallOnOutput h => FluentCommand.onOutput h this
  end.

(** [this.c1(..).c2(..)...] *)
Definition chain {num} `{JsNumber num} (calls : list (BuilderCall num))
    (this : FluentCommand.t) : FluentCommand.t :=
  fold_left (fun this c => call c this) calls this.

(** The tokens of one call, as the specification words them: the value of
    an option is a token when it is a non-empty string or a number, and the
    key, when it is not empty, is a token with its dashes before it. *)
Definition valueTokens {num} `{JsNumber num} (v : OptionValue num)
  : list JsString :=
  match v with
  | undefined => []
  | str [] => []
  | str s => [s]
  | number n => [toString n]
  end.

Definition keyTokens (dashes : string) (key : JsString) : list JsString :=
  match key with
  | [] => []
  | _ => [lit dashes ++ key]
  end.

Definition tokens {num} `{JsNumber num} (c : BuilderCall num)
  : list JsString :=
  match c with
  | CallArgs a rest => a :: rest
  | CallOpt k v => keyTokens "-" k ++ valueTokens v
  | CallOption k v => keyTokens "--" k ++ valueTokens v
  | _ => []
  end.

(** ** Executions *)

(** The events before the one that settles the promise. *)
Definition streaming (ev : Z * ProcEvent) : bool :=
  match snd ev with
  | EvSpawn | EvData _ _ => true
  | EvError _ | EvClose _ _ => false
  end.

(** Chunks arriving on the two channels, each with the clock reading at its
    arrival, as events. *)
Definition arrivals (chunks : list (Z * (Source * JsString)))
  : list (Z * ProcEvent) :=
  map (fun a => (fst a, EvData (fst (snd a)) (snd (snd a)))) chunks.

Definition sameSource (a b : Source) : bool :=
  match a, b with
  | Stdout, Stdout | Stderr, Stderr => true
  | _, _ => false
  end.

(** The text of the chunks of one channel, in their order. *)
Definition textFrom (source : Source) (chunks : list (Source * JsString))
  : JsString :=
  concat (map snd (filter (fun c => sameSource source (fst c)) chunks)).

(** The text of all chunks, in their order. *)
Definition textOf (chunks : list (Source * JsString)) : JsString :=
  concat (map snd chunks).

(** The diagnostic line of a spawn failure: [`${error.code}: ${error.message}`]
    for an error whose [code] is a string. *)
Definition diagnostic (err : Rejection) : list (Source * JsString) :=
  match err with
  | RejObject (CodeString errCode) message =>
      [(Stderr, errCode ++ lit ": " ++ message)]
  | _ => []
  end.

(** The chunks that one event passes to [#onChunk]: the chunk that arrives
    on a channel, and the diagnostic line of an error that finds the promise
    pending. *)
Definition chunksOfEvent (pending : bool) (ev : ProcEvent)
  : list (Source * JsString) :=
  match ev with
  | EvData source chunk => [(source, chunk)]
  | EvError err => if pending then diagnostic err else []
  | EvSpawn | EvClose _ _ => []
  end.

(** The chunks of the events of an execution, in their order. *)
Fixpoint chunksOf (pending : bool) (events : list (Z * ProcEvent))
  : list (Source * JsString) :=
  match events with
  | [] => []
  | ev :: rest =>
      chunksOfEvent pending (snd ev)
        ++ chunksOf (pending && streaming ev) rest
  end.

Definition pending (r : FluentCommand.Running) : bool :=
  match FluentCommand.result r with
  | None => true
  | Some _ => false
  end.

Definition isWrite (e : Effect) : bool :=
  match e with
  | ProcessWrite _ _ => true
  | _ => false
  end.

Definition notWrite (e : Effect) : bool := negb (isWrite e).

Definition isCall (e : Effect) : bool :=
  match e with
  | CallOutput _ _ | CallSpawn _ _ => true
  | _ => false
  end.

Definition write (c : Source * JsString) : Effect :=
  ProcessWrite (fst c) (snd c).

(** The fields that only the builder and the start of an execution assign:
    a command with the fields that the listeners assign put back to their
    initial values. *)
Definition settings (this : FluentCommand.t) : FluentCommand.t :=
  FluentCommand.with_code None
    (FluentCommand.with_signal None
       (FluentCommand.with_stdoutContents []
          (FluentCommand.with_stderrContents []
             (FluentCommand.with_outputContents [] this)))).

(** The fields that [Ok] and [Err] outcomes share. *)
Definition successOf (res : FluentCommand.Result) : FluentCommandSuccess.t :=
  match res with
  | FluentCommand.Ok value => value
  | FluentCommand.Err error => FluentCommandError.success error
  end.

(** The observer registered for the channel of a source. *)
Definition observerOf (source : Source) (this : FluentCommand.t)
  : option OutputHandler :=
  match source with
  | Stdout => FluentCommand.stdoutHandler this
  | Stderr => FluentCommand.stderrHandler this
  end.

(** Case analysis on the fields of a command. *)
Ltac fields this :=
  destruct this as [exe args st so se oc cd sg cp ex rc sh oh eh uh silent].

(** ** The earlier variant of the class

    The sources hold an earlier version of the module, with the outcome
    fields named [cmd] and [cmdArgs] and without the spawn observer.  Its
    builder is the same; the fields and [cwd] are given here. *)

Module Earlier.

Record t := {
  executable : JsString;
  commandArgs : list JsString;
  startTime : Z;
  stdoutContents : JsString;
  stderrContents : JsString;
  outputContents : JsString;
  code : option Z;
  signal : option Signals;
  cwdPath : JsString;
  extraCwdPathPieces : list JsString;
  resolvedCwd : JsString;
  stdoutHandler : option OutputHandler;
  stderrHandler : option OutputHandler;
  outputHandler : option OutputHandler
}.

Definition cwd (cwdPath' : JsString) (extraCwdPathPieces' : list JsString)
    (this : t) : t :=
  {| executable := executable this; commandArgs := commandArgs this;
     startTime := startTime this; stdoutContents := stdoutContents this;
     stderrContents := stderrContents this;
     outputContents := outputContents this; code := code this;
     signal := signal this; cwdPath := cwdPath';
     extraCwdPathPieces := extraCwdPathPieces';
     resolvedCwd := resolvedCwd this;
     stdoutHandler := stdoutHandler this;
     stderrHandler := stderrHandler this;
     outputHandler := outputHandler this |}.


(** The outcome types of the earlier variant. *)
Module Success.
Record t := {
  cmd : JsString;
  cmdArgs : list JsString;
  cwd : JsString;
  duration : Z;
  output : JsString;
  stderr : JsString;
  stdout : JsString
}.
End Success.

Module Failure.
Record t := {
  success : Success.t;
  code : option Z;
  signal : option Signals
}.
End Failure.

(** Assignments to one field. *)
Definition with_commandArgs v (this : t) : t :=
  {| executable := executable this;
     commandArgs := v;
     startTime := startTime this;
     stdoutContents := stdoutContents this;
     stderrContents := stderrContents this;
     outputContents := outputContents this;
     code := code this;
     signal := signal this;
     cwdPath := cwdPath this;
     extraCwdPathPieces := extraCwdPathPieces this;
     resolvedCwd := resolvedCwd this;
     stdoutHandler := stdoutHandler this;
     stderrHandler := stderrHandler this;
     outputHandler := outputHandler this |}.

Definition with_startTime v (this : t) : t :=
  {| executable := executable this;
     commandArgs := commandArgs this;
     startTime := v;
     stdoutContents := stdoutContents this;
     stderrContents := stderrContents this;
     outputContents := outputContents this;
     code := code this;
     signal := signal this;
     cwdPath := cwdPath this;
     extraCwdPathPieces := extraCwdPathPieces this;
     resolvedCwd := resolvedCwd this;
     stdoutHandler := stdoutHandler this;
     stderrHandler := stderrHandler this;
     outputHandler := outputHandler this |}.

Definition with_stdoutContents v (this : t) : t :=
  {| executable := executable this;
     commandArgs := commandArgs this;
     startTime := startTime this;
     stdoutContents := v;
     stderrContents := stderrContents this;
     outputContents := outputContents this;
     code := code this;
     signal := signal this;
     cwdPath := cwdPath this;
     extraCwdPathPieces := extraCwdPathPieces this;
     resolvedCwd := resolvedCwd this;
     stdoutHandler := stdoutHandler this;
     stderrHandler := stderrHandler this;
     outputHandler := outputHandler this |}.

Definition with_stderrContents v (this : t) : t :=
  {| executable := executable this;
     commandArgs := commandArgs this;
     startTime := startTime this;
     stdoutContents := stdoutContents this;
     stderrContents := v;
     outputContents := outputContents this;
     code := code this;
     signal := signal this;
     cwdPath := cwdPath this;
     extraCwdPathPieces := extraCwdPathPieces this;
     resolvedCwd := resolvedCwd this;
     stdoutHandler := stdoutHandler this;
     stderrHandler := stderrHandler this;
     outputHandler := outputHandler this |}.

Definition with_code v (this : t) : t :=
  {| executable := executable this;
     commandArgs := commandArgs this;
     startTime := startTime this;
     stdoutContents := stdoutContents this;
     stderrContents := stderrContents this;
     outputContents := outputContents this;
     code := v;
     signal := signal this;
     cwdPath := cwdPath this;
     extraCwdPathPieces := extraCwdPathPieces this;
     resolvedCwd := resolvedCwd this;
     stdoutHandler := stdoutHandler this;
     stderrHandler := stderrHandler this;
     outputHandler := outputHandler this |}.

Definition with_signal v (this : t) : t :=
  {| executable := executable this;
     commandArgs := commandArgs this;
     startTime := startTime this;
     stdoutContents := stdoutContents this;
     stderrContents := stderrContents this;
     outputContents := outputContents this;
     code := code this;
     signal := v;
     cwdPath := cwdPath this;
     extraCwdPathPieces := extraCwdPathPieces this;
     resolvedCwd := resolvedCwd this;
     stdoutHandler := stdoutHandler this;
     stderrHandler := stderrHandler this;
     outputHandler := outputHandler this |}.

Definition with_resolvedCwd v (this : t) : t :=
  {| executable := executable this;
     commandArgs := commandArgs this;
     startTime := startTime this;
     stdoutContents := stdoutContents this;
     stderrContents := stderrContents this;
     outputContents := outputContents this;
     code := code this;
     signal := signal this;
     cwdPath := cwdPath this;
     extraCwdPathPieces := extraCwdPathPieces this;
     resolvedCwd := v;
     stdoutHandler := stdoutHandler this;
     stderrHandler := stderrHandler this;
     outputHandler := outputHandler this |}.

Definition with_stdoutHandler v (this : t) : t :=
  {| executable := executable this;
     commandArgs := commandArgs this;
     startTime := startTime this;
     stdoutContents := stdoutContents this;
     stderrContents := stderrContents this;
     outputContents := outputContents this;
     code := code this;
     signal := signal this;
     cwdPath := cwdPath this;
     extraCwdPathPieces := extraCwdPathPieces this;
     resolvedCwd := resolvedCwd this;
     stdoutHandler := v;
     stderrHandler := stderrHandler this;
     outputHandler := outputHandler this |}.

Definition with_stderrHandler v (this : t) : t :=
  {| executable := executable this;
     commandArgs := commandArgs this;
     startTime := startTime this;
     stdoutContents := stdoutContents this;
     stderrContents := stderrContents this;
     outputContents := outputContents this;
     code := code this;
     signal := signal this;
     cwdPath := cwdPath this;
     extraCwdPathPieces := extraCwdPathPieces this;
     resolvedCwd := resolvedCwd this;
     stdoutHandler := stdoutHandler this;
     stderrHandler := v;
     outputHandler := outputHandler this |}.

Definition with_outputHandler v (this : t) : t :=
  {| executable := executable this;
     commandArgs := commandArgs this;
     startTime := startTime this;
     stdoutContents := stdoutContents this;
     stderrContents := stderrContents this;
     outputContents := outputContents this;
     code := code this;
     signal := signal this;
     cwdPath := cwdPath this;
     extraCwdPathPieces := extraCwdPathPieces this;
     resolvedCwd := resolvedCwd this;
     stdoutHandler := stdoutHandler this;
     stderrHandler := stderrHandler this;
     outputHandler := v |}.

Definition constructor (executable : JsString)
    (initialArgs : list JsString) : t :=
  {| executable := executable; commandArgs := initialArgs;
     startTime := 0; stdoutContents := []; stderrContents := [];
     outputContents := []; code := None; signal := None;
     cwdPath := []; extraCwdPathPieces := []; resolvedCwd := [];
     stdoutHandler := None; stderrHandler := None;
     outputHandler := None |}.

(** [#addArgs] *)
Definition addArgs (extraArgs : list JsString) (this : t) : t :=
  with_commandArgs (commandArgs this ++ extraArgs) this.

Definition args (anArg : JsString) (extraArgs : list JsString) (this : t)
  : t :=
  addArgs (anArg :: extraArgs) this.

(** [#addOptionPair] *)
Definition addOptionPair {num} `{JsNumber num} (dashes : nat)
    (optionKey : JsString) (optionValue : OptionValue num) (this : t) : t :=
  let this :=
    if (0 <? length optionKey)%nat then
      let dashesPrefix := repeatDash dashes ++ optionKey in
      addArgs [dashesPrefix] this
    else this in
  match optionValue with
  | str s => if (0 <? length s)%nat then addArgs [s] this else this
  | number n => addArgs [toString n] this
  | undefined => this
  end.

(** [#commandSuccess] *)
Definition commandSuccess (now : Z) (this : t) : Success.t :=
  {| Success.stdout := trimEnd (stdoutContents this);
     Success.stderr := trimEnd (stderrContents this);
     Success.output := trimEnd (outputContents this);
     Success.cmd := executable this;
     Success.cmdArgs := commandArgs this;
     Success.cwd := resolvedCwd this;
     Success.duration := (now - startTime this)%Z |}.

(** [#commandError]; a field that is [undefined] is [None]. *)
Definition commandError (now : Z) (this : t) : Failure.t :=
  {| Failure.success := commandSuccess now this;
     Failure.code := code this;
     Failure.signal := signal this |}.

Inductive Result :=
| Ok (value : Success.t)
| Err (error : Failure.t).

Record Running := {
  this_of : t;
  result : option Result
}.

(** The body of the promise of [#runOrRead] up to the listeners. *)
Definition start (env : Env) (this : t) : Running * list Effect :=
  let this := with_startTime (now env) this in
  let this :=
    with_resolvedCwd
      (Path.resolvePath (Path.resolvePath (processCwd env) [])
         (cwdPath this :: extraCwdPathPieces this)) this in
  ({| this_of := this; result := None |},
   [SpawnProcess {| SpawnInfo.executable := executable this;
                    SpawnInfo.commandArgs := commandArgs this;
                    SpawnInfo.cwd := resolvedCwd this |}]).

(** The two [data] listeners. *)
Definition onData (shouldBeSilent : bool) (source : Source)
    (chunk : JsString) (this : t) : t * list Effect :=
  match source with
  | Stdout =>
      (with_stdoutContents (stdoutContents this ++ chunk) this,
       (if negb shouldBeSilent then [ProcessWrite Stdout chunk] else [])
         ++ FluentCommand.callIf (stdoutHandler this) chunk
         ++ FluentCommand.callIf (outputHandler this) chunk)
  | Stderr =>
      (with_stderrContents (stderrContents this ++ chunk) this,
       (if negb shouldBeSilent then [ProcessWrite Stderr chunk] else [])
         ++ FluentCommand.callIf (stderrHandler this) chunk
         ++ FluentCommand.callIf (outputHandler this) chunk)
  end.

(** The error mapper. *)
Definition errorMapper (now : Z) (err : Rejection) (this : t)
  : t * Failure.t :=
  match err with
  | RejObject (CodeString errCode) message =>
      let this :=
        with_stderrContents
          (stderrContents this ++ errCode ++ lit ": " ++ message) this in
      (this, commandError now this)
  | _ => (this, commandError now this)
  end.

Definition resolve (value : Success.t) (r : Running) : Running :=
  match result r with
  | Some _ => r
  | None => {| this_of := this_of r; result := Some (Ok value) |}
  end.

Definition reject (now : Z) (err : Rejection) (r : Running) : Running :=
  match result r with
  | Some _ => r
  | None =>
      let '(this, error) := errorMapper now err (this_of r) in
      {| this_of := this; result := Some (Err error) |}
  end.

(** The listeners; this variant has none for the [spawn] event. *)
Definition handle (shouldBeSilent : bool) (now : Z) (ev : ProcEvent)
    (r : Running) : Running * list Effect :=
  match ev with
  | EvData source chunk =>
      let '(this, effects) :=
        onData shouldBeSilent source chunk (this_of r) in
      ({| this_of := this; result := result r |}, effects)
  | EvSpawn => (r, [])
  | EvError err => (reject now err r, [])
  | EvClose code signal =>
      let this := this_of r in
      let this :=
        match code with
        | Some c => with_code (Some c) this
        | None => this
        end in
      let this :=
        match signal with
        | Some s => with_signal (Some s) this
        | None => this
        end in
      let r := {| this_of := this; result := result r |} in
      match code with
      | Some 0%Z => (resolve (commandSuccess now this) r, [])
      | _ => (reject now RejUndefined r, [])
      end
  end.

Fixpoint deliver (shouldBeSilent : bool) (events : list (Z * ProcEvent))
    (r : Running) : Running * list Effect :=
  match events with
  | [] => (r, [])
  | (now, ev) :: rest =>
      let '(r, effects) := handle shouldBeSilent now ev r in
      let '(r, later) := deliver shouldBeSilent rest r in
      (r, effects ++ later)
  end.

Definition runOrRead (shouldBeSilent : bool) (env : Env)
    (events : list (Z * ProcEvent)) (this : t) : Running * list Effect :=
  let '(r, effects) := start env this in
  let '(r, later) := deliver shouldBeSilent events r in
  (r, effects ++ later).

Definition opt {num} `{JsNumber num} (optionKey : JsString)
    (optionValue : OptionValue num) (this : t) : t :=
  addOptionPair 1 optionKey optionValue this.

Definition onStdout (stdoutHandler : OutputHandler) (this : t) : t :=
  with_stdoutHandler (Some stdoutHandler) this.

Definition onStderr (stderrHandler : OutputHandler) (this : t) : t :=
  with_stderrHandler (Some stderrHandler) this.

Definition onOutput (outputHandler : OutputHandler) (this : t) : t :=
  with_outputHandler (Some outputHandler) this.

Definition run := runOrRead false.

Definition read := runOrRead true.

Definition option {num} `{JsNumber num} (optionKey : JsString)
    (optionValue : OptionValue num) (this : t) : t :=
  addOptionPair 2 optionKey optionValue this.

End Earlier.

(** The builder calls of the earlier variant, which are those of the class
    but [onSpawn]. *)
Inductive EarlierCall (num : Type) :=
| ECallArgs (anArg : JsString) (extraArgs : list JsString)
| ECallOpt (optionKey : JsString) (optionValue : OptionValue num)
| ECallOption (optionKey : JsString) (optionValue : OptionValue num)
| ECallCwd (cwdPath : JsString) (extraCwdPathPieces : list JsString)
| ECallOnStdout (handler : OutputHandler)
| ECallOnStderr (handler : OutputHandler)
| ECallOnOutput (handler : OutputHandler).
Arguments ECallArgs {num} anArg extraArgs.
Arguments ECallCwd {num} cwdPath extraCwdPathPieces.
Arguments ECallOnStdout {num} handler.
Arguments ECallOnStderr {num} handler.
Arguments ECallOnOutput {num} handler.

Definition earlierCall {num} `{JsNumber num} (c : EarlierCall num)
    (this : Earlier.t) : Earlier.t :=
  match c with
  | ECallArgs a rest => Earlier.args a rest this
  | ECallOpt k v => Earlier.opt k v this
  | ECallOption k v => Earlier.option k v this
  | ECallCwd p ps => Earlier.cwd p ps this
  | ECallOnStdout h => Earlier.onStdout h this
  | ECallOnStderr h => Earlier.onStderr h this
  | ECallOnOutput h => Earlier.onOutput h this
  end.

Definition earlierChain {num} `{JsNumber num} (calls : list (EarlierCall num))
    (this : Earlier.t) : Earlier.t :=
  fold_left (fun this c => earlierCall c this) calls this.

(** The same call on the class. *)
Definition sameCall {num} (c : EarlierCall num) : BuilderCall num :=
  match c with
  | ECallArgs a rest => CallArgs a rest
  | ECallOpt k v => CallOpt k v
  | ECallOption k v => CallOption k v
  | ECallCwd p ps => CallCwd p ps
  | ECallOnStdout h => CallOnStdout h
  | ECallOnStderr h => CallOnStderr h
  | ECallOnOutput h => CallOnOutput h
  end.

Definition isSpawnProcess (e : Effect) : bool :=
  match e with
  | SpawnProcess _ => true
  | _ => false
  end.

Definition isSpawnCall (e : Effect) : bool :=
  match e with
  | CallSpawn _ _ => true
  | _ => false
  end.

(** A command without observers that is not to write. *)
Definition unobserved_silent (this : FluentCommand.t) : Prop :=
  FluentCommand.spawnHandler this = None
  /\ FluentCommand.stdoutHandler this = None
  /\ FluentCommand.stderrHandler this = None
  /\ FluentCommand.outputHandler this = None
  /\ FluentCommand.shouldBeSilent this = true.

(** Case analysis on the fields of a command of the earlier variant. *)
Ltac earlier_fields this :=
  destruct this as [exe args st so se oc cd sg cp ex rc oh eh uh].

(** ** The two variants side by side *)

(** The fields that [Ok] and [Err] outcomes of the earlier variant share. *)
Definition earlierSuccessOf (res : Earlier.Result) : Earlier.Success.t :=
  match res with
  | Earlier.Ok value => value
  | Earlier.Err error => Earlier.Failure.success error
  end.

(** A command of the earlier variant as a command of the class: the same
    fields, no spawn observer, and the flag and the combined accumulator as
    given; the earlier variant passes the flag to [#runOrRead]. *)
Definition asClass (shouldBeSilent : bool) (outputContents : JsString)
    (e : Earlier.t) : FluentCommand.t :=
  {| FluentCommand.executable := Earlier.executable e;
     FluentCommand.commandArgs := Earlier.commandArgs e;
     FluentCommand.startTime := Earlier.startTime e;
     FluentCommand.stdoutContents := Earlier.stdoutContents e;
     FluentCommand.stderrContents := Earlier.stderrContents e;
     FluentCommand.outputContents := outputContents;
     FluentCommand.code := Earlier.code e;
     FluentCommand.signal := Earlier.signal e;
     FluentCommand.cwdPath := Earlier.cwdPath e;
     FluentCommand.extraCwdPathPieces := Earlier.extraCwdPathPieces e;
     FluentCommand.resolvedCwd := Earlier.resolvedCwd e;
     FluentCommand.spawnHandler := None;
     FluentCommand.stdoutHandler := Earlier.stdoutHandler e;
     FluentCommand.stderrHandler := Earlier.stderrHandler e;
     FluentCommand.outputHandler := Earlier.outputHandler e;
     FluentCommand.shouldBeSilent := shouldBeSilent |}.

(** An outcome of the earlier variant under the names of the class, with
    the combined output as given. *)
Definition asSuccess (output : JsString) (v : Earlier.Success.t)
  : FluentCommandSuccess.t :=
  {| FluentCommandSuccess.executable := Earlier.Success.cmd v;
     FluentCommandSuccess.commandArgs := Earlier.Success.cmdArgs v;
     FluentCommandSuccess.cwd := Earlier.Success.cwd v;
     FluentCommandSuccess.duration := Earlier.Success.duration v;
     FluentCommandSuccess.output := output;
     FluentCommandSuccess.stderr := Earlier.Success.stderr v;
     FluentCommandSuccess.stdout := Earlier.Success.stdout v |}.

Definition asResult (output : JsString) (res : Earlier.Result)
  : FluentCommand.Result :=
  match res with
  | Earlier.Ok value => FluentCommand.Ok (asSuccess output value)
  | Earlier.Err error =>
      FluentCommand.Err
        {| FluentCommandError.success :=
             asSuccess output (Earlier.Failure.success error);
           FluentCommandError.code := Earlier.Failure.code error;
           FluentCommandError.signal := Earlier.Failure.signal error |}
  end.

(** ** Examples *)

Example quick_start_args :
  FluentCommand.commandArgs
    (chain [CallOpt (lit "someShortOption") undefined;
            CallOption (lit "someOptionKey") (str (lit "someOptionValue"));
            CallArgs (lit "anotherArg") [lit "lastArg"];
            CallOption (lit "n") (number 12%Z);
            CallOpt (lit "e") (str [])]
       (fcmd (lit "someExecutable") [lit "someArg"]))
  = [lit "someArg"; lit "-someShortOption"; lit "--someOptionKey";
     lit "someOptionValue"; lit "anotherArg"; lit "lastArg"; lit "--n";
     lit "12"; lit "-e"].
Proof. reflexivity. Qed.

Example echo_hello :
  FluentCommand.result
    (fst (FluentCommand.read {| now := 5; processCwd := lit "/w" |}
            [(6, EvSpawn); (7, EvData Stdout (lit "hello" ++ [10%N]));
             (9, EvClose (Some 0) None)]%Z
            (fcmd (lit "echo") [lit "hello"])))
  = Some (FluentCommand.Ok
            {| FluentCommandSuccess.executable := lit "echo";
               FluentCommandSuccess.commandArgs := [lit "hello"];
               FluentCommandSuccess.cwd := lit "/w";
               FluentCommandSuccess.duration := 4;
               FluentCommandSuccess.output := lit "hello";
               FluentCommandSuccess.stderr := [];
               FluentCommandSuccess.stdout := lit "hello" |}).
Proof. reflexivity. Qed.

Example missing_executable :
  FluentCommand.run {| now := 0; processCwd := lit "/w" |}
    [(1, EvError (RejObject (CodeString (lit "ENOENT"))
                    (lit "spawn nope ENOENT")));
     (2, EvClose (Some (-2)) None)]%Z
    (FluentCommand.onStderr 7 (fcmd (lit "nope") []))
  = let line := lit "ENOENT: spawn nope ENOENT" in
    let this :=
      FluentCommand.with_outputContents line
        (FluentCommand.with_stderrContents line
           (FluentCommand.with_code (Some (-2)%Z)
              (FluentCommand.with_resolvedCwd (lit "/w")
                 (FluentCommand.with_shouldBeSilent false
                    (FluentCommand.onStderr 7 (fcmd (lit "nope") [])))))) in
    ({| FluentCommand.this_of := this;
        FluentCommand.result :=
          Some (FluentCommand.Err (FluentCommand.commandError 1 this)) |},
     [SpawnProcess (FluentCommand.spawnInfo this);
      CallOutput 7 line; ProcessWrite Stderr line]).
Proof. reflexivity. Qed.

Example cwd_in_order :
  FluentCommand.resolvedCwd
    (FluentCommand.this_of
       (fst (FluentCommand.read {| now := 0; processCwd := lit "/home/u" |} []
               (FluentCommand.cwd (lit "a/b") [lit "../c"; lit "/srv"; lit "x"]
                  (fcmd (lit "pwd") [])))))
  = lit "/srv/x".
Proof. reflexivity. Qed.

(** * Properties *)

(** ** The argument vector *)

Lemma commandArgs_addArgs extra this :
  FluentCommand.commandArgs (FluentCommand.addArgs extra this)
  = FluentCommand.commandArgs this ++ extra.
Proof. reflexivity. Qed.

Lemma commandArgs_addOptionPair num `{JsNumber num} dashes key
    (v : OptionValue num) this :
  FluentCommand.commandArgs (FluentCommand.addOptionPair dashes key v this)
  = FluentCommand.commandArgs this
      ++ match key with [] => [] | _ => [repeatDash dashes ++ key] end
      ++ valueTokens v.
Proof.
  unfold FluentCommand.addOptionPair.
  destruct key as [|k key']; cbn [length Nat.ltb Nat.leb].
  - destruct v as [|[|c s]|n]; cbn; now rewrite ?app_nil_r.
  - destruct v as [|[|c s]|n]; cbn; rewrite <- ?app_assoc; cbn;
      now rewrite ?app_nil_r.
Qed.

Lemma commandArgs_call num `{JsNumber num} (c : BuilderCall num) this :
  FluentCommand.commandArgs (call c this)
  = FluentCommand.commandArgs this ++ tokens c.
Proof.
  destruct c; cbn [call tokens]; try (cbn; now rewrite app_nil_r).
  - reflexivity.
  - unfold FluentCommand.opt. rewrite commandArgs_addOptionPair.
    now destruct optionKey.
  - unfold FluentCommand.option. rewrite commandArgs_addOptionPair.
    now destruct optionKey.
Qed.

Lemma commandArgs_chain num `{JsNumber num} (calls : list (BuilderCall num))
    this :
  FluentCommand.commandArgs (chain calls this)
  = FluentCommand.commandArgs this ++ concat (map tokens calls).
Proof.
  revert this. induction calls as [|c calls IH]; intros this; cbn.
  - now rewrite app_nil_r.
  - unfold chain in IH. rewrite IH, commandArgs_call. now rewrite app_assoc.
Qed.

(** C3.  After the constructor and any chain of builder calls, the argument
    vector is the initial arguments followed by the tokens of the calls in
    call order: [args] gives its arguments as they are, [opt] gives [-key]
    for a non-empty key and then the value when it is a non-empty string or
    a number (printed by [toString]), [option] the same with [--]; the
    other builder calls give no token. *)
Theorem commandArgs_is_concatenation_of_tokens :
  forall num (N : JsNumber num) executable initialArgs
         (calls : list (BuilderCall num)),
    FluentCommand.commandArgs (chain calls (fcmd executable initialArgs))
    = initialArgs ++ concat (map tokens calls).
Proof.
  intros. now rewrite commandArgs_chain.
Qed.

(** ** Executions: delivery of events *)

Import FluentCommand(this_of, result, handle, deliver, runOrRead, onChunk).

Lemma deliver_app events later r :
  deliver (events ++ later) r
  = (fst (deliver later (fst (deliver events r))),
     snd (deliver events r) ++ snd (deliver later (fst (deliver events r)))).
Proof.
  revert r. induction events as [|[now ev] events IH]; intros r; cbn.
  - now destruct (deliver later r).
  - destruct (handle now ev r) as [r1 e1]. rewrite IH.
    destruct (deliver events r1) as [r2 e2]; cbn.
    destruct (deliver later r2) as [r3 e3]; cbn.
    now rewrite app_assoc.
Qed.

Lemma deliver_one now ev r :
  deliver [(now, ev)] r = handle now ev r.
Proof.
  cbn. destruct (handle now ev r). now rewrite app_nil_r.
Qed.

Lemma runOrRead_eq env events this :
  runOrRead env events this
  = (fst (deliver events (fst (FluentCommand.start env this))),
     snd (FluentCommand.start env this)
       ++ snd (deliver events (fst (FluentCommand.start env this)))).
Proof.
  unfold runOrRead. destruct (FluentCommand.start env this) as [r e].
  cbn [fst snd]. now destruct (deliver events r).
Qed.

Lemma runOrRead_app env events later this :
  runOrRead env (events ++ later) this
  = (fst (deliver later (fst (runOrRead env events this))),
     snd (runOrRead env events this)
       ++ snd (deliver later (fst (runOrRead env events this)))).
Proof.
  rewrite !runOrRead_eq, deliver_app. cbn [fst snd]. now rewrite app_assoc.
Qed.

(** A streaming event leaves the promise as it is. *)
Lemma handle_streaming now ev r :
  streaming (now, ev) = true -> result (fst (handle now ev r)) = result r.
Proof.
  destruct ev; cbn; try discriminate; intros _; try reflexivity.
  now destruct (onChunk source chunk (this_of r)).
Qed.

Lemma deliver_streaming events r :
  forallb streaming events = true ->
  result (fst (deliver events r)) = result r.
Proof.
  revert r. induction events as [|[now ev] events IH]; intros r; cbn.
  - reflexivity.
  - intros [Hev Hrest]%andb_prop.
    pose proof (handle_streaming now ev r Hev) as H1.
    destruct (handle now ev r) as [r1 e1]. specialize (IH r1 Hrest).
    destruct (deliver events r1) as [r2 e2]. cbn in *. congruence.
Qed.

Lemma runOrRead_streaming env events this :
  forallb streaming events = true ->
  result (fst (runOrRead env events this)) = None.
Proof.
  intros H. rewrite runOrRead_eq. cbn [fst].
  now rewrite deliver_streaming.
Qed.

(** The listeners assign only the accumulators, the code and the signal. *)
Lemma settings_onChunk source chunk this :
  settings (fst (onChunk source chunk this)) = settings this.
Proof. now destruct source. Qed.

Lemma settings_handle now ev r :
  settings (this_of (fst (handle now ev r))) = settings (this_of r).
Proof.
  destruct r as [this res]. destruct ev as [|source chunk|err|code signal]; cbn.
  - reflexivity.
  - now destruct source.
  - unfold FluentCommand.reject; cbn. destruct res; [reflexivity|].
    destruct err as [| | |[|s|] m]; reflexivity.
  - destruct code as [[|?|?]|];
      unfold FluentCommand.reject, FluentCommand.resolve;
      cbn; destruct res; reflexivity.
Qed.

Lemma settings_deliver events r :
  settings (this_of (fst (deliver events r))) = settings (this_of r).
Proof.
  revert r. induction events as [|[now ev] events IH]; intros r; cbn.
  - reflexivity.
  - pose proof (settings_handle now ev r) as H1.
    destruct (handle now ev r) as [r1 e1]. specialize (IH r1).
    destruct (deliver events r1) as [r2 e2]. cbn in *. congruence.
Qed.

Lemma settings_runOrRead_field A (field : FluentCommand.t -> A) env events
    this :
  (forall a, field (settings a) = field a) ->
  (forall a v w,
      field
        (FluentCommand.with_resolvedCwd v (FluentCommand.with_startTime w a))
      = field a) ->
  field (this_of (fst (runOrRead env events this))) = field this.
Proof.
  intros Hs Hstart. rewrite runOrRead_eq. cbn [fst].
  rewrite <- Hs, settings_deliver, Hs. cbn. apply Hstart.
Qed.

(** ** One chunk *)

Lemma onChunk_effects source chunk this :
  snd (onChunk source chunk this)
  = FluentCommand.callIf (observerOf source this) chunk
      ++ FluentCommand.callIf (FluentCommand.outputHandler this) chunk
      ++ (if FluentCommand.shouldBeSilent this then []
          else [ProcessWrite source chunk]).
Proof.
  destruct source; cbn; now destruct (FluentCommand.shouldBeSilent this).
Qed.

Lemma onChunk_outputContents source chunk this :
  FluentCommand.outputContents (fst (onChunk source chunk this))
  = FluentCommand.outputContents this ++ chunk.
Proof. now destruct source. Qed.

Lemma onChunk_stdoutContents source chunk this :
  FluentCommand.stdoutContents (fst (onChunk source chunk this))
  = FluentCommand.stdoutContents this
      ++ (if sameSource Stdout source then chunk else []).
Proof. destruct source; cbn; now rewrite ?app_nil_r. Qed.

Lemma onChunk_stderrContents source chunk this :
  FluentCommand.stderrContents (fst (onChunk source chunk this))
  = FluentCommand.stderrContents this
      ++ (if sameSource Stderr source then chunk else []).
Proof. destruct source; cbn; now rewrite ?app_nil_r. Qed.

(** ** Settlement *)

Lemma handle_close_pending now code signal r :
  result r = None ->
  let this :=
    FluentCommand.with_signal signal
      (FluentCommand.with_code code (this_of r)) in
  handle now (EvClose code signal) r
  = ({| this_of := this;
        result :=
          Some match code with
               | Some 0%Z =>
                   FluentCommand.Ok (FluentCommand.commandSuccess now this)
               | _ => FluentCommand.Err (FluentCommand.commandError now this)
               end |}, []).
Proof.
  intros H. destruct r as [this res]. cbn in H. subst res.
  now destruct code as [[|?|?]|].
Qed.

Lemma handle_spawn_failure_pending now errCode message r :
  result r = None ->
  let chunked :=
    onChunk Stderr (errCode ++ lit ": " ++ message)
      (FluentCommand.with_code (Some SPAWN_MISSING_EXE_CODE) (this_of r)) in
  handle now (EvError (RejObject (CodeString errCode) message)) r
  = ({| this_of := fst chunked;
        result :=
          Some (FluentCommand.Err
                  (FluentCommand.commandError now (fst chunked))) |},
     snd chunked).
Proof.
  intros H. destruct r as [this res]. cbn in H. subst res. reflexivity.
Qed.

(** C1.  In an execution whose events up to the [close] event are streaming
    events, the [close] event settles the result: with exit code 0 as [Ok]
    of the outcome built then, with any other exit code or none (the process
    ended by a signal) as [Err] of that outcome with the code and the signal
    of the event, each absent when the event has none. *)
Theorem close_settles_by_exit_code :
  forall env this pre now code signal,
    forallb streaming pre = true ->
    let r := fst (runOrRead env (pre ++ [(now, EvClose code signal)]) this) in
    let outcome := FluentCommand.commandSuccess now (this_of r) in
    result r
    = Some match code with
           | Some 0%Z => FluentCommand.Ok outcome
           | _ =>
               FluentCommand.Err
                 {| FluentCommandError.success := outcome;
                    FluentCommandError.code := code;
                    FluentCommandError.signal := signal |}
           end.
Proof.
  intros env this pre now code signal Hpre.
  rewrite runOrRead_app, deliver_one. cbn [fst].
  rewrite handle_close_pending by now apply runOrRead_streaming.
  cbn. now destruct code as [[|?|?]|].
Qed.

Lemma close_settles_by_exit_code_witness :
  let env := {| now := 10; processCwd := lit "/w" |} in
  let this := fcmd (lit "sleep") [lit "9"] in
  let pre := [(11, EvSpawn); (12, EvData Stderr (lit "late "))]%Z in
  forallb streaming pre = true
  /\ result
       (fst (runOrRead env
               (pre ++ [(15, EvClose None (Some (lit "SIGTERM")))]%Z) this))
     = Some (FluentCommand.Err
               {| FluentCommandError.success :=
                    {| FluentCommandSuccess.executable := lit "sleep";
                       FluentCommandSuccess.commandArgs := [lit "9"];
                       FluentCommandSuccess.cwd := lit "/w";
                       FluentCommandSuccess.duration := 5;
                       FluentCommandSuccess.output := lit "late";
                       FluentCommandSuccess.stderr := lit "late";
                       FluentCommandSuccess.stdout := [] |};
                  FluentCommandError.code := None;
                  FluentCommandError.signal := Some (lit "SIGTERM") |}).
Proof.
  split; [reflexivity|].
  exact (close_settles_by_exit_code
           {| now := 10; processCwd := lit "/w" |}
           (fcmd (lit "sleep") [lit "9"])
           [(11, EvSpawn); (12, EvData Stderr (lit "late "))]%Z
           15%Z None (Some (lit "SIGTERM")) eq_refl).
Defined.

(** C2.  In an execution whose events up to the [error] event are streaming
    events, an error whose [code] is a string settles the result as [Err]
    of an outcome whose code is [SPAWN_MISSING_EXE_CODE], which is -2; the
    line [code: message] is put at the end of the stderr accumulator, and
    the stderr of the outcome is built from the accumulator with the line. *)
Theorem spawn_failure_settles_with_sentinel :
  forall env this pre now errCode message,
    forallb streaming pre = true ->
    let line := errCode ++ lit ": " ++ message in
    let failure := (now, EvError (RejObject (CodeString errCode) message)) in
    let before := this_of (fst (runOrRead env pre this)) in
    let r := fst (runOrRead env (pre ++ [failure]) this) in
    FluentCommand.stderrContents (this_of r)
    = FluentCommand.stderrContents before ++ line
    /\ (exists error,
           result r = Some (FluentCommand.Err error)
           /\ FluentCommandError.code error = Some (-2)%Z
           /\ FluentCommandSuccess.stderr (FluentCommandError.success error)
              = trimEnd (FluentCommand.stderrContents before ++ line)).
Proof.
  intros env this pre now errCode message Hpre line failure before r.
  subst r failure. rewrite runOrRead_app, deliver_one. cbn [fst].
  rewrite handle_spawn_failure_pending by now apply runOrRead_streaming.
  cbn [fst this_of result]. split; [reflexivity|].
  eexists; split; [reflexivity|]. split; reflexivity.
Qed.

Lemma spawn_failure_settles_with_sentinel_witness :
  let env := {| now := 0; processCwd := lit "/w" |} in
  let this := fcmd (lit "nope") [] in
  let r :=
    fst (runOrRead env
           ([] ++ [(3, EvError (RejObject (CodeString (lit "ENOENT"))
                                  (lit "spawn nope ENOENT")))]%Z) this) in
  forallb streaming [] = true
  /\ FluentCommand.stderrContents (this_of r)
     = [] ++ lit "ENOENT: spawn nope ENOENT"
  /\ (exists error,
         result r = Some (FluentCommand.Err error)
         /\ FluentCommandError.code error = Some (-2)%Z
         /\ FluentCommandSuccess.stderr (FluentCommandError.success error)
            = trimEnd ([] ++ lit "ENOENT: spawn nope ENOENT")).
Proof.
  split; [reflexivity|].
  exact (spawn_failure_settles_with_sentinel
           {| now := 0; processCwd := lit "/w" |} (fcmd (lit "nope") []) []
           3%Z (lit "ENOENT") (lit "spawn nope ENOENT") eq_refl).
Defined.

(** C10.  The line of a spawn failure goes through [#onChunk]: it is put at
    the end of the stderr accumulator and of the combined accumulator, the
    stderr observer and then the combined observer are called with it when
    registered, and after them [run] writes it to the stderr of the
    controlling process, while [read] writes nothing. *)
Theorem spawn_failure_line_goes_through_onChunk :
  forall env this pre now errCode message,
    forallb streaming pre = true ->
    let line := errCode ++ lit ": " ++ message in
    let failure := (now, EvError (RejObject (CodeString errCode) message)) in
    let observers :=
      FluentCommand.callIf (FluentCommand.stderrHandler this) line
        ++ FluentCommand.callIf (FluentCommand.outputHandler this) line in
    (forall silent,
        let this := FluentCommand.with_shouldBeSilent silent this in
        let before := this_of (fst (runOrRead env pre this)) in
        let after := this_of (fst (runOrRead env (pre ++ [failure]) this)) in
        FluentCommand.stderrContents after
        = FluentCommand.stderrContents before ++ line
        /\ FluentCommand.outputContents after
           = FluentCommand.outputContents before ++ line
        /\ FluentCommand.stdoutContents after
           = FluentCommand.stdoutContents before)
    /\ snd (FluentCommand.run env (pre ++ [failure]) this)
       = snd (FluentCommand.run env pre this)
           ++ observers ++ [ProcessWrite Stderr line]
    /\ snd (FluentCommand.read env (pre ++ [failure]) this)
       = snd (FluentCommand.read env pre this) ++ observers.
Proof.
  intros env this pre now errCode message Hpre line failure observers.
  assert (Hstep : forall that,
             snd (runOrRead env (pre ++ [failure]) that)
             = snd (runOrRead env pre that)
                 ++ FluentCommand.callIf (FluentCommand.stderrHandler that) line
                 ++ FluentCommand.callIf (FluentCommand.outputHandler that) line
                 ++ (if FluentCommand.shouldBeSilent that then []
                     else [ProcessWrite Stderr line])).
  { intros that. subst failure. rewrite runOrRead_app, deliver_one. cbn [snd].
    rewrite handle_spawn_failure_pending by now apply runOrRead_streaming.
    cbn [snd]. rewrite onChunk_effects. f_equal. cbn [observerOf].
    change (FluentCommand.stderrHandler (FluentCommand.with_code ?c ?a))
      with (FluentCommand.stderrHandler a).
    change (FluentCommand.outputHandler (FluentCommand.with_code ?c ?a))
      with (FluentCommand.outputHandler a).
    change (FluentCommand.shouldBeSilent (FluentCommand.with_code ?c ?a))
      with (FluentCommand.shouldBeSilent a).
    rewrite (settings_runOrRead_field FluentCommand.stderrHandler),
      (settings_runOrRead_field FluentCommand.outputHandler),
      (settings_runOrRead_field FluentCommand.shouldBeSilent);
      reflexivity. }
  split; [|split].
  - intros silent that before after. subst after before failure.
    rewrite runOrRead_app, deliver_one. cbn [fst].
    rewrite handle_spawn_failure_pending by now apply runOrRead_streaming.
    cbn [fst this_of].
    rewrite onChunk_stderrContents, onChunk_outputContents,
      onChunk_stdoutContents.
    cbn [sameSource]. now rewrite app_nil_r.
  - unfold FluentCommand.run. rewrite Hstep. subst observers.
    now rewrite <- app_assoc.
  - unfold FluentCommand.read. rewrite Hstep. subst observers.
    cbn [FluentCommand.shouldBeSilent FluentCommand.with_shouldBeSilent].
    now rewrite app_nil_r.
Qed.

Lemma spawn_failure_line_goes_through_onChunk_witness :
  let env := {| now := 0; processCwd := lit "/w" |} in
  let this :=
    FluentCommand.onOutput 2
      (FluentCommand.onStderr 1 (fcmd (lit "nope") [])) in
  let failure :=
    (3%Z, EvError (RejObject (CodeString (lit "EACCES")) (lit "denied"))) in
  let line := lit "EACCES: denied" in
  forallb streaming [] = true
  /\ snd (FluentCommand.run env ([] ++ [failure]) this)
     = snd (FluentCommand.run env [] this)
         ++ ([CallOutput 1 line] ++ [CallOutput 2 line])
         ++ [ProcessWrite Stderr line]
  /\ snd (FluentCommand.read env ([] ++ [failure]) this)
     = snd (FluentCommand.read env [] this)
         ++ ([CallOutput 1 line] ++ [CallOutput 2 line]).
Proof.
  split; [reflexivity|].
  exact (proj2 (spawn_failure_line_goes_through_onChunk
           {| now := 0; processCwd := lit "/w" |}
           (FluentCommand.onOutput 2
              (FluentCommand.onStderr 1 (fcmd (lit "nope") [])))
           [] 3%Z (lit "EACCES") (lit "denied") eq_refl)).
Defined.

(** ** The accumulators *)

Lemma textOf_app a b : textOf (a ++ b) = textOf a ++ textOf b.
Proof. unfold textOf. now rewrite map_app, concat_app. Qed.

Lemma textFrom_app source a b :
  textFrom source (a ++ b) = textFrom source a ++ textFrom source b.
Proof. unfold textFrom. now rewrite filter_app, map_app, concat_app. Qed.

Lemma textFrom_one source from chunk :
  textFrom source [(from, chunk)]
  = if sameSource source from then chunk else [].
Proof.
  unfold textFrom. cbn. destruct (sameSource source from); cbn;
    now rewrite ?app_nil_r.
Qed.

(** What one event does to the accumulators and to the promise. *)
Lemma handle_accumulators now ev r :
  let after := this_of (fst (handle now ev r)) in
  let chunks := chunksOfEvent (pending r) ev in
  FluentCommand.outputContents after
  = FluentCommand.outputContents (this_of r) ++ textOf chunks
  /\ FluentCommand.stdoutContents after
     = FluentCommand.stdoutContents (this_of r) ++ textFrom Stdout chunks
  /\ FluentCommand.stderrContents after
     = FluentCommand.stderrContents (this_of r) ++ textFrom Stderr chunks
  /\ pending (fst (handle now ev r)) = pending r && streaming (now, ev).
Proof.
  destruct r as [this res].
  destruct ev as [|source chunk|err|code signal]; cbn -[textOf textFrom].
  - unfold textOf, textFrom; cbn. now rewrite !app_nil_r, andb_true_r.
  - rewrite andb_true_r, !textFrom_one. unfold textOf; cbn.
    rewrite app_nil_r. now destruct source; cbn; rewrite ?app_nil_r.
  - unfold FluentCommand.reject, pending; cbn -[textOf textFrom].
    destruct res as [res|]; cbn -[textOf textFrom].
    + unfold textOf, textFrom; cbn. now rewrite !app_nil_r.
    + destruct err as [| | |[|s|] m]; cbn -[textOf textFrom];
        rewrite ?textFrom_one; unfold textOf, textFrom; cbn;
        now rewrite ?app_nil_r.
  - unfold textOf, textFrom, pending; cbn. rewrite !app_nil_r, andb_false_r.
    destruct code as [[|?|?]|];
      unfold FluentCommand.reject, FluentCommand.resolve; cbn;
      destruct res; cbn; auto.
Qed.

Lemma deliver_accumulators events r :
  let after := this_of (fst (deliver events r)) in
  let chunks := chunksOf (pending r) events in
  FluentCommand.outputContents after
  = FluentCommand.outputContents (this_of r) ++ textOf chunks
  /\ FluentCommand.stdoutContents after
     = FluentCommand.stdoutContents (this_of r) ++ textFrom Stdout chunks
  /\ FluentCommand.stderrContents after
     = FluentCommand.stderrContents (this_of r) ++ textFrom Stderr chunks.
Proof.
  revert r. induction events as [|[now ev] events IH]; intros r.
  - unfold textOf, textFrom; cbn. now rewrite !app_nil_r.
  - cbn -[textOf textFrom handle].
    destruct (handle_accumulators now ev r) as (Ho & H1 & H2 & Hp).
    destruct (handle now ev r) as [r1 e1]. cbn [fst] in *.
    destruct (IH r1) as (Io & I1 & I2). rewrite Hp in *.
    destruct (deliver events r1) as [r2 e2]. cbn [fst] in *.
    rewrite textOf_app, !textFrom_app, !app_assoc.
    rewrite Io, I1, I2, Ho, H1, H2. auto.
Qed.

Lemma chunksOf_arrivals p chunks :
  chunksOf p (arrivals chunks) = map snd chunks.
Proof.
  revert p. induction chunks as [|[now [source chunk]] chunks IH]; intros p.
  - reflexivity.
  - cbn. now rewrite IH.
Qed.

(** The builder leaves the fields of an execution as they are. *)
Lemma call_execution_fields num `{JsNumber num} (c : BuilderCall num) this :
  let after := call c this in
  FluentCommand.outputContents after = FluentCommand.outputContents this
  /\ FluentCommand.stdoutContents after = FluentCommand.stdoutContents this
  /\ FluentCommand.stderrContents after = FluentCommand.stderrContents this.
Proof.
  destruct c as [a rest|k v|k v|p ps|h|h|h|h]; cbn; auto;
    destruct k, v as [|[|c s]|x]; cbn; auto.
Qed.

Lemma chain_execution_fields num `{JsNumber num}
    (calls : list (BuilderCall num)) this :
  let after := chain calls this in
  FluentCommand.outputContents after = FluentCommand.outputContents this
  /\ FluentCommand.stdoutContents after = FluentCommand.stdoutContents this
  /\ FluentCommand.stderrContents after = FluentCommand.stderrContents this.
Proof.
  revert this. induction calls as [|c calls IH]; intros this; cbn; auto.
  destruct (IH (call c this)) as (Io & I1 & I2).
  destruct (call_execution_fields c this) as (Co & C1 & C2).
  unfold chain in *. cbn in *. rewrite Io, I1, I2. auto.
Qed.

(** C5.  Whatever the accumulators hold, a sequence of chunk arrivals puts
    at the end of the combined accumulator the chunks in their order of
    arrival, at the end of the stdout accumulator the stdout chunks and at
    the end of the stderr accumulator the stderr chunks; so each arrival
    keeps the invariant, and in the execution of a command made by [fcmd]
    and builder calls the accumulators are these concatenations. *)
Theorem accumulators_are_concatenations_of_chunks :
  forall chunks : list (Z * (Source * JsString)),
    let received := map snd chunks in
    (forall r,
        let after := this_of (fst (deliver (arrivals chunks) r)) in
        FluentCommand.outputContents after
        = FluentCommand.outputContents (this_of r) ++ textOf received
        /\ FluentCommand.stdoutContents after
           = FluentCommand.stdoutContents (this_of r)
               ++ textFrom Stdout received
        /\ FluentCommand.stderrContents after
           = FluentCommand.stderrContents (this_of r)
               ++ textFrom Stderr received)
    /\ (forall num (N : JsNumber num) env executable initialArgs
               (calls : list (BuilderCall num)),
           let this := chain calls (fcmd executable initialArgs) in
           let after := this_of (fst (runOrRead env (arrivals chunks) this)) in
           FluentCommand.outputContents after = textOf received
           /\ FluentCommand.stdoutContents after = textFrom Stdout received
           /\ FluentCommand.stderrContents after = textFrom Stderr received).
Proof.
  intros chunks received. split.
  - intros r after. subst after received.
    rewrite <- (chunksOf_arrivals (pending r)). apply deliver_accumulators.
  - intros num N env executable initialArgs calls this after.
    subst after. rewrite runOrRead_eq. cbn [fst].
    destruct (deliver_accumulators (arrivals chunks)
                (fst (FluentCommand.start env this))) as (Ho & H1 & H2).
    rewrite chunksOf_arrivals in Ho, H1, H2. fold received in Ho, H1, H2.
    rewrite Ho, H1, H2. cbn.
    destruct (chain_execution_fields calls (fcmd executable initialArgs))
      as (Co & C1 & C2).
    fold this in Co, C1, C2. rewrite Co, C1, C2. auto.
Qed.

(** ** [run] and [read] *)

Lemma handle_mirror now ev a b :
  this_of b = FluentCommand.with_shouldBeSilent true (this_of a) ->
  result b = result a ->
  this_of (fst (handle now ev b))
  = FluentCommand.with_shouldBeSilent true (this_of (fst (handle now ev a)))
  /\ result (fst (handle now ev b)) = result (fst (handle now ev a))
  /\ snd (handle now ev b) = filter notWrite (snd (handle now ev a)).
Proof.
  destruct a as [ta ra], b as [tb rb]. cbn [this_of result].
  intros -> ->. fields ta.
  destruct ev as [|source chunk|err|code signal].
  - cbn. now destruct sh.
  - destruct source, oh, eh, uh, silent; cbn; auto.
  - unfold handle, FluentCommand.reject. cbn [result this_of].
    destruct ra as [res|]; [cbn; auto|].
    destruct err as [| | |[|s|] m]; cbn; auto.
    destruct eh, uh, silent; cbn; auto.
  - unfold handle, FluentCommand.reject, FluentCommand.resolve.
    destruct code as [[|?|?]|]; cbn [result this_of];
      destruct ra as [res|]; cbn; auto.
Qed.

Lemma deliver_mirror events a b :
  this_of b = FluentCommand.with_shouldBeSilent true (this_of a) ->
  result b = result a ->
  this_of (fst (deliver events b))
  = FluentCommand.with_shouldBeSilent true (this_of (fst (deliver events a)))
  /\ result (fst (deliver events b)) = result (fst (deliver events a))
  /\ snd (deliver events b) = filter notWrite (snd (deliver events a)).
Proof.
  revert a b. induction events as [|[now ev] events IH]; intros a b Ht Hr.
  - cbn. auto.
  - cbn -[handle].
    destruct (handle_mirror now ev a b Ht Hr) as (Ht1 & Hr1 & He1).
    destruct (handle now ev a) as [a1 ea], (handle now ev b) as [b1 eb].
    cbn [fst snd] in *.
    destruct (IH a1 b1 Ht1 Hr1) as (Ht2 & Hr2 & He2).
    destruct (deliver events a1) as [a2 ea2], (deliver events b1) as [b2 eb2].
    cbn [fst snd] in *. rewrite filter_app. subst. auto.
Qed.

Lemma pending_streaming_step now ev r :
  pending (fst (handle now ev r)) = pending r && streaming (now, ev).
Proof. apply handle_accumulators. Qed.

Lemma shouldBeSilent_handle now ev r :
  FluentCommand.shouldBeSilent (this_of (fst (handle now ev r)))
  = FluentCommand.shouldBeSilent (this_of r).
Proof.
  change (FluentCommand.shouldBeSilent
            (settings (this_of (fst (handle now ev r))))
          = FluentCommand.shouldBeSilent (this_of r)).
  now rewrite settings_handle.
Qed.

Lemma handle_writes now ev r :
  filter isWrite (snd (handle now ev r))
  = if FluentCommand.shouldBeSilent (this_of r) then []
    else map write (chunksOfEvent (pending r) ev).
Proof.
  destruct r as [this res]. fields this. unfold pending. cbn [result this_of].
  destruct ev as [|source chunk|err|code signal].
  - cbn. destruct sh, silent; reflexivity.
  - destruct source, oh, eh, uh, silent; reflexivity.
  - unfold handle, FluentCommand.reject. cbn [result this_of].
    destruct res as [res|]; [now destruct silent|].
    destruct err as [| | |[|s|] m]; cbn; try now destruct silent.
    destruct eh, uh, silent; reflexivity.
  - unfold handle, FluentCommand.reject, FluentCommand.resolve.
    destruct code as [[|?|?]|]; cbn [result this_of];
      destruct res as [res|]; cbn; now destruct silent.
Qed.

Lemma deliver_writes events r :
  filter isWrite (snd (deliver events r))
  = if FluentCommand.shouldBeSilent (this_of r) then []
    else map write (chunksOf (pending r) events).
Proof.
  revert r. induction events as [|[now ev] events IH]; intros r.
  - cbn. now destruct (FluentCommand.shouldBeSilent (this_of r)).
  - cbn -[handle].
    pose proof (handle_writes now ev r) as Hw.
    pose proof (pending_streaming_step now ev r) as Hp.
    pose proof (shouldBeSilent_handle now ev r) as Hs.
    destruct (handle now ev r) as [r1 e1]. cbn [fst snd] in *.
    specialize (IH r1). rewrite Hp, Hs in IH.
    destruct (deliver events r1) as [r2 e2]. cbn [fst snd] in *.
    rewrite filter_app, Hw, IH, map_app.
    now destruct (FluentCommand.shouldBeSilent (this_of r)).
Qed.

Lemma filter_notWrite_isWrite effects :
  filter isWrite (filter notWrite effects) = [].
Proof.
  induction effects as [|e effects IH]; [reflexivity|].
  destruct e; cbn; auto.
Qed.

Lemma filter_notWrite_isCall effects :
  filter isCall (filter notWrite effects) = filter isCall effects.
Proof.
  induction effects as [|e effects IH]; [reflexivity|].
  destruct e; cbn; now rewrite ?IH.
Qed.

(** C4.  On the same events, [run] and [read] end in commands that differ
    at most in the flag [shouldBeSilent], so with the same accumulators,
    and in the same result; the effects of [read] are those of [run]
    without the writes to the streams of the controlling process, so the
    observers are called alike; [read] writes nothing, and [run] writes each
    chunk of the execution in its order, after the observers of that chunk
    have been called. *)
Theorem run_and_read_differ_only_in_mirroring :
  forall env events this,
    let ran := FluentCommand.run env events this in
    let red := FluentCommand.read env events this in
    this_of (fst red)
    = FluentCommand.with_shouldBeSilent true (this_of (fst ran))
    /\ FluentCommand.stdoutContents (this_of (fst red))
       = FluentCommand.stdoutContents (this_of (fst ran))
    /\ FluentCommand.stderrContents (this_of (fst red))
       = FluentCommand.stderrContents (this_of (fst ran))
    /\ FluentCommand.outputContents (this_of (fst red))
       = FluentCommand.outputContents (this_of (fst ran))
    /\ result (fst red) = result (fst ran)
    /\ snd red = filter notWrite (snd ran)
    /\ filter isCall (snd red) = filter isCall (snd ran)
    /\ filter isWrite (snd red) = []
    /\ filter isWrite (snd ran) = map write (chunksOf true events)
    /\ (forall source chunk that,
           snd (onChunk source chunk
                  (FluentCommand.with_shouldBeSilent false that))
           = snd (onChunk source chunk
                    (FluentCommand.with_shouldBeSilent true that))
               ++ [ProcessWrite source chunk]).
Proof.
  intros env events this ran red.
  assert (Hm : this_of (fst red)
               = FluentCommand.with_shouldBeSilent true (this_of (fst ran))
               /\ result (fst red) = result (fst ran)
               /\ snd red = filter notWrite (snd ran)).
  { subst ran red. unfold FluentCommand.run, FluentCommand.read.
    rewrite !runOrRead_eq. cbn [fst snd].
    destruct (deliver_mirror events
                (fst (FluentCommand.start env
                        (FluentCommand.with_shouldBeSilent false this)))
                (fst (FluentCommand.start env
                        (FluentCommand.with_shouldBeSilent true this))))
      as (Ht & Hr & He); [reflexivity|reflexivity|].
    rewrite filter_app, <- He. auto. }
  destruct Hm as (Ht & Hr & He).
  repeat split; auto.
  - now rewrite Ht.
  - now rewrite Ht.
  - now rewrite Ht.
  - rewrite He. apply filter_notWrite_isCall.
  - rewrite He. apply filter_notWrite_isWrite.
  - subst ran. unfold FluentCommand.run. rewrite runOrRead_eq. cbn [snd].
    rewrite filter_app, deliver_writes. reflexivity.
  - intros source chunk that. rewrite !onChunk_effects. cbn.
    now rewrite app_nil_r, <- !app_assoc.
Qed.

(** ** Trimming *)

Lemma trimEnd_split s :
  exists ws, s = trimEnd s ++ ws /\ forallb isWhiteSpace ws = true.
Proof.
  induction s as [|c s (ws & Hs & Hws)]; cbn.
  - now exists [].
  - destruct (trimEnd s) as [|k kept] eqn:Ht.
    + destruct (isWhiteSpace c) eqn:Hc.
      * exists (c :: ws). cbn in *. rewrite Hc, Hws. now subst.
      * exists ws. cbn in *. now subst.
    + exists ws. split; [|assumption]. cbn. now rewrite Hs at 1.
Qed.

Lemma trimEnd_last s kept c :
  trimEnd s = kept ++ [c] -> isWhiteSpace c = false.
Proof.
  revert kept. induction s as [|d s IH]; intros kept; cbn.
  - now destruct kept.
  - destruct (trimEnd s) as [|k t] eqn:Ht.
    + destruct (isWhiteSpace d) eqn:Hd.
      * now destruct kept.
      * destruct kept as [|? [|? ?]]; cbn; intros [= ]. now subst.
    + destruct kept as [|k' kept']; cbn.
      * intros H. inversion H.
      * intros [= -> H]. now apply (IH kept').
Qed.

(** The event that settles the promise builds the outcome from the command
    as that event leaves it. *)
Lemma handle_settles now ev r res :
  pending r = true ->
  result (fst (handle now ev r)) = Some res ->
  successOf res
  = FluentCommand.commandSuccess now (this_of (fst (handle now ev r))).
Proof.
  destruct r as [this [old|]]; unfold pending; cbn [result]; [discriminate|].
  intros _. destruct ev as [|source chunk|err|code signal].
  - discriminate.
  - cbn. destruct (onChunk source chunk this). discriminate.
  - destruct err as [| | |[|s|] m]; cbn; intros [= <-]; reflexivity.
  - destruct code as [[|?|?]|]; cbn; intros [= <-]; reflexivity.
Qed.

Lemma handle_calls_verbatim now ev r h chunk :
  In (CallOutput h chunk) (snd (handle now ev r)) ->
  exists source, In (source, chunk) (chunksOfEvent (pending r) ev).
Proof.
  destruct r as [this res]. fields this. unfold pending. cbn [result].
  destruct ev as [|source chunk'|err|code signal].
  - cbn. destruct sh; cbn; [intros [H|[]]; discriminate|intros []].
  - intros H. exists source. left. f_equal.
    destruct source, oh, eh, uh, silent; cbn in H;
      repeat (destruct H as [H|H]; try congruence); contradiction.
  - unfold handle, FluentCommand.reject. cbn [result this_of].
    destruct res as [res|]; [intros []|].
    destruct err as [| | |[|s|] m]; try (intros []).
    intros H. exists Stderr. left. f_equal.
    destruct eh, uh, silent; cbn in H |- *;
      repeat (destruct H as [H|H]; try congruence); contradiction.
  - unfold handle, FluentCommand.reject, FluentCommand.resolve.
    destruct code as [[|?|?]|]; cbn [result this_of];
      destruct res as [res|]; intros [].
Qed.

Lemma deliver_calls_verbatim events r h chunk :
  In (CallOutput h chunk) (snd (deliver events r)) ->
  exists source, In (source, chunk) (chunksOf (pending r) events).
Proof.
  revert r. induction events as [|[now ev] events IH]; intros r.
  - intros [].
  - cbn -[handle].
    pose proof (handle_calls_verbatim now ev r h chunk) as Hh.
    pose proof (pending_streaming_step now ev r) as Hp.
    destruct (handle now ev r) as [r1 e1]. cbn [fst snd] in *.
    specialize (IH r1). rewrite Hp in IH.
    destruct (deliver events r1) as [r2 e2]. cbn [fst snd] in *.
    intros [H|H]%in_app_or.
    + destruct (Hh H) as [source Hs]. exists source. apply in_or_app. auto.
    + destruct (IH H) as [source Hs]. exists source. apply in_or_app. auto.
Qed.

(** C7.  [trimEnd] takes trailing white space off and nothing else.  In an
    execution whose events before the last are streaming events, the
    outcome that the last event settles has as stdout, stderr and output the
    accumulators of the command with [trimEnd] applied, be it [Ok] or [Err],
    while a [close] event leaves the accumulators themselves as they are.
    Every chunk that an observer is called with is a chunk of the
    execution, as it arrived. *)
Theorem trimming_only_in_the_outcome :
  (forall s,
      (exists ws, s = trimEnd s ++ ws /\ forallb isWhiteSpace ws = true)
      /\ (forall kept c, trimEnd s = kept ++ [c] -> isWhiteSpace c = false))
  /\ (forall env this pre now ev res,
         forallb streaming pre = true ->
         let r := fst (runOrRead env (pre ++ [(now, ev)]) this) in
         result r = Some res ->
         FluentCommandSuccess.stdout (successOf res)
         = trimEnd (FluentCommand.stdoutContents (this_of r))
         /\ FluentCommandSuccess.stderr (successOf res)
            = trimEnd (FluentCommand.stderrContents (this_of r))
         /\ FluentCommandSuccess.output (successOf res)
            = trimEnd (FluentCommand.outputContents (this_of r)))
  /\ (forall now code signal r,
         let after := this_of (fst (handle now (EvClose code signal) r)) in
         FluentCommand.stdoutContents after
         = FluentCommand.stdoutContents (this_of r)
         /\ FluentCommand.stderrContents after
            = FluentCommand.stderrContents (this_of r)
         /\ FluentCommand.outputContents after
            = FluentCommand.outputContents (this_of r))
  /\ (forall env events this h chunk,
         In (CallOutput h chunk) (snd (runOrRead env events this)) ->
         exists source, In (source, chunk) (chunksOf true events)).
Proof.
  split; [|split; [|split]].
  - intros s. split; [apply trimEnd_split|apply trimEnd_last].
  - intros env this pre now ev res Hpre r Hres. subst r.
    rewrite runOrRead_app, deliver_one in *. cbn [fst] in *.
    apply handle_settles in Hres.
    + rewrite Hres. cbn. auto.
    + unfold pending. now rewrite runOrRead_streaming.
  - intros now code signal r after.
    destruct (handle_accumulators now (EvClose code signal) r)
      as (Ho & H1 & H2 & _).
    subst after. rewrite Ho, H1, H2. unfold textOf, textFrom. cbn.
    now rewrite !app_nil_r.
  - intros env events this h chunk. rewrite runOrRead_eq. cbn [snd].
    intros [H|H]%in_app_or.
    + cbn in H. destruct H as [H|[]]. discriminate.
    + apply deliver_calls_verbatim in H. exact H.
Qed.

Lemma trimming_only_in_the_outcome_witness :
  let env := {| now := 0; processCwd := lit "/w" |} in
  let this := fcmd (lit "echo") [lit "hi "] in
  let pre := [(1, EvData Stdout (lit "hi  ")); (2, EvData Stderr [32%N])]%Z in
  let res :=
    FluentCommand.Ok
      {| FluentCommandSuccess.executable := lit "echo";
         FluentCommandSuccess.commandArgs := [lit "hi "];
         FluentCommandSuccess.cwd := lit "/w";
         FluentCommandSuccess.duration := 3;
         FluentCommandSuccess.output := lit "hi";
         FluentCommandSuccess.stderr := [];
         FluentCommandSuccess.stdout := lit "hi" |} in
  let r := fst (runOrRead env (pre ++ [(3%Z, EvClose (Some 0%Z) None)]) this) in
  forallb streaming pre = true
  /\ result r = Some res
  /\ FluentCommand.stdoutContents (this_of r) = lit "hi  "
  /\ FluentCommandSuccess.stdout (successOf res)
     = trimEnd (FluentCommand.stdoutContents (this_of r))
  /\ FluentCommandSuccess.stderr (successOf res)
     = trimEnd (FluentCommand.stderrContents (this_of r))
  /\ FluentCommandSuccess.output (successOf res)
     = trimEnd (FluentCommand.outputContents (this_of r)).
Proof.
  split; [reflexivity|]. split; [reflexivity|]. split; [reflexivity|].
  exact (proj1 (proj2 trimming_only_in_the_outcome)
           {| now := 0; processCwd := lit "/w" |}
           (fcmd (lit "echo") [lit "hi "])
           [(1, EvData Stdout (lit "hi  ")); (2, EvData Stderr [32%N])]%Z
           3%Z (EvClose (Some 0%Z) None) _ eq_refl eq_refl).
Defined.

(** ** Observers *)

(** C8.  Each channel has one slot.  A registration puts its callback in
    the slot of its channel whatever was there, so that a second
    registration leaves the command as if the first had not been made, and
    it leaves the slots of the other channels as they are.  The events do
    not change the slots.  A chunk calls the observer of its channel, if
    one is registered, and then the combined observer, if one is
    registered, once each and no other; the [spawn] event calls the spawn
    observer, if one is registered, once. *)
Theorem observers_have_one_slot_per_channel :
  (forall this first second,
      FluentCommand.onSpawn second (FluentCommand.onSpawn first this)
      = FluentCommand.onSpawn second this
      /\ FluentCommand.onStdout second (FluentCommand.onStdout first this)
         = FluentCommand.onStdout second this
      /\ FluentCommand.onStderr second (FluentCommand.onStderr first this)
         = FluentCommand.onStderr second this
      /\ FluentCommand.onOutput second (FluentCommand.onOutput first this)
         = FluentCommand.onOutput second this)
  /\ (forall this h,
         FluentCommand.spawnHandler (FluentCommand.onSpawn h this) = Some h
         /\ FluentCommand.stdoutHandler (FluentCommand.onStdout h this)
            = Some h
         /\ FluentCommand.stderrHandler (FluentCommand.onStderr h this)
            = Some h
         /\ FluentCommand.outputHandler (FluentCommand.onOutput h this)
            = Some h)
  /\ (forall this h,
         let slots this :=
           (FluentCommand.spawnHandler this, FluentCommand.stdoutHandler this,
            FluentCommand.stderrHandler this,
            FluentCommand.outputHandler this) in
         slots (FluentCommand.onSpawn h this)
         = (Some h, FluentCommand.stdoutHandler this,
            FluentCommand.stderrHandler this, FluentCommand.outputHandler this)
         /\ slots (FluentCommand.onStdout h this)
            = (FluentCommand.spawnHandler this, Some h,
               FluentCommand.stderrHandler this,
               FluentCommand.outputHandler this)
         /\ slots (FluentCommand.onStderr h this)
            = (FluentCommand.spawnHandler this,
               FluentCommand.stdoutHandler this, Some h,
               FluentCommand.outputHandler this)
         /\ slots (FluentCommand.onOutput h this)
            = (FluentCommand.spawnHandler this,
               FluentCommand.stdoutHandler this,
               FluentCommand.stderrHandler this, Some h))
  /\ (forall now ev r,
         let after := this_of (fst (handle now ev r)) in
         FluentCommand.spawnHandler after
         = FluentCommand.spawnHandler (this_of r)
         /\ FluentCommand.stdoutHandler after
            = FluentCommand.stdoutHandler (this_of r)
         /\ FluentCommand.stderrHandler after
            = FluentCommand.stderrHandler (this_of r)
         /\ FluentCommand.outputHandler after
            = FluentCommand.outputHandler (this_of r))
  /\ (forall now source chunk r,
         filter isCall (snd (handle now (EvData source chunk) r))
         = match observerOf source (this_of r) with
           | Some h => [CallOutput h chunk]
           | None => []
           end
           ++ match FluentCommand.outputHandler (this_of r) with
              | Some h => [CallOutput h chunk]
              | None => []
              end)
  /\ (forall now r,
         snd (handle now EvSpawn r)
         = match FluentCommand.spawnHandler (this_of r) with
           | Some h => [CallSpawn h (FluentCommand.spawnInfo (this_of r))]
           | None => []
           end).
Proof.
  split; [|split; [|split; [|split; [|split]]]].
  - intros this first second. repeat split.
  - intros this h. repeat split.
  - intros this h slots. repeat split.
  - intros now ev r after.
    pose proof (settings_handle now ev r) as H. fold after in H.
    split; [|split; [|split]].
    + now apply (f_equal FluentCommand.spawnHandler) in H.
    + now apply (f_equal FluentCommand.stdoutHandler) in H.
    + now apply (f_equal FluentCommand.stderrHandler) in H.
    + now apply (f_equal FluentCommand.outputHandler) in H.
  - intros now source chunk r. destruct r as [this res]. fields this.
    destruct source, oh, eh, uh, silent; reflexivity.
  - reflexivity.
Qed.

(** ** The working directory *)

(** C9.  A call of [cwd] puts its base and its further fragments in place
    of those of an earlier call, so that the command is as if the earlier
    call had not been made, and leaves the executable, the argument vector
    and the observers as they are, in this class and in its earlier
    variant; two calls of [args] both leave their arguments in the
    vector. *)
Theorem cwd_replaces_earlier_fragments :
  (forall this base extra base' extra',
      FluentCommand.cwd base' extra' (FluentCommand.cwd base extra this)
      = FluentCommand.cwd base' extra' this)
  /\ (forall this base extra,
         let after := FluentCommand.cwd base extra this in
         FluentCommand.cwdPath after = base
         /\ FluentCommand.extraCwdPathPieces after = extra
         /\ FluentCommand.executable after = FluentCommand.executable this
         /\ FluentCommand.commandArgs after = FluentCommand.commandArgs this
         /\ FluentCommand.spawnHandler after
            = FluentCommand.spawnHandler this
         /\ FluentCommand.stdoutHandler after
            = FluentCommand.stdoutHandler this
         /\ FluentCommand.stderrHandler after
            = FluentCommand.stderrHandler this
         /\ FluentCommand.outputHandler after
            = FluentCommand.outputHandler this)
  /\ (forall this base extra base' extra',
         Earlier.cwd base' extra' (Earlier.cwd base extra this)
         = Earlier.cwd base' extra' this)
  /\ (forall this base extra,
         let after := Earlier.cwd base extra this in
         Earlier.cwdPath after = base
         /\ Earlier.extraCwdPathPieces after = extra
         /\ Earlier.executable after = Earlier.executable this
         /\ Earlier.commandArgs after = Earlier.commandArgs this
         /\ Earlier.stdoutHandler after = Earlier.stdoutHandler this
         /\ Earlier.stderrHandler after = Earlier.stderrHandler this
         /\ Earlier.outputHandler after = Earlier.outputHandler this)
  /\ (forall this anArg extraArgs anArg' extraArgs',
         FluentCommand.commandArgs
           (FluentCommand.args anArg' extraArgs'
              (FluentCommand.args anArg extraArgs this))
         = FluentCommand.commandArgs this
             ++ (anArg :: extraArgs) ++ (anArg' :: extraArgs')).
Proof.
  split; [|split; [|split; [|split]]];
    [reflexivity | intros; repeat split | reflexivity
    | intros; repeat split | ].
  intros this anArg extraArgs anArg' extraArgs'.
  unfold FluentCommand.args. rewrite !commandArgs_addArgs.
  now rewrite <- app_assoc.
Qed.

Lemma Path_segments_plain p :
  Forall (fun s => Path.plain s = true) (Path.segments p).
Proof.
  induction p as [|c p IH]; cbn.
  - repeat constructor.
  - destruct (c =? Path.slash)%N eqn:Hc.
    + constructor; [reflexivity|assumption].
    + destruct (Path.segments p) as [|s ss]; inversion IH; subst;
        constructor; cbn; try rewrite Hc; auto.
Qed.

Lemma Path_walk_named entered segs :
  Forall (fun s => Path.named s = true) entered ->
  Forall (fun s => Path.plain s = true) segs ->
  Forall (fun s => Path.named s = true) (Path.walk entered segs).
Proof.
  revert entered. induction segs as [|s segs IH]; intros entered He Hs; cbn.
  - assumption.
  - inversion Hs as [|? ? Hp Hrest]; subst.
    destruct (Path.eqb s [] || Path.eqb s Path.dot) eqn:H1; [now apply IH|].
    destruct (Path.eqb s Path.dotdot) eqn:H2.
    + apply IH; [|assumption]. destruct entered; [constructor|].
      now inversion He.
    + apply IH; [|assumption]. constructor; [|assumption].
      unfold Path.named. apply orb_false_elim in H1 as [H0 H1].
      now rewrite H0, H1, H2, Hp.
Qed.

Lemma Path_joinStep_named entered fragment :
  Forall (fun s => Path.named s = true) entered ->
  Forall (fun s => Path.named s = true) (Path.joinStep entered fragment).
Proof.
  intros He. unfold Path.joinStep. apply Path_walk_named.
  - destruct (Path.isAbsolute fragment); [constructor|assumption].
  - apply Path_segments_plain.
Qed.

Lemma Path_segments_alone s :
  Path.plain s = true -> Path.segments s = [s].
Proof.
  induction s as [|c s IH]; [reflexivity|]. cbn.
  intros [Hc Hs]%andb_prop. apply negb_true_iff in Hc.
  now rewrite Hc, IH.
Qed.

Lemma Path_segments_before_slash s rest :
  Path.plain s = true ->
  Path.segments (s ++ Path.slash :: rest) = s :: Path.segments rest.
Proof.
  induction s as [|c s IH]; cbn.
  - reflexivity.
  - intros [Hc Hs]%andb_prop. apply negb_true_iff in Hc.
    now rewrite Hc, IH.
Qed.

Lemma Path_segments_joined s names :
  Path.plain s = true ->
  Forall (fun s => Path.plain s = true) names ->
  Path.segments (s ++ concat (map (fun n => Path.slash :: n) names))
  = s :: names.
Proof.
  intros Hs Hn. revert s Hs.
  induction Hn as [|n names Hp Hn IH]; intros s Hs; cbn [map concat].
  - rewrite app_nil_r. now apply Path_segments_alone.
  - cbn [app]. rewrite Path_segments_before_slash by assumption.
    now rewrite IH.
Qed.

Lemma Path_named_plain names :
  Forall (fun s => Path.named s = true) names ->
  Forall (fun s => Path.plain s = true) names.
Proof.
  apply Forall_impl. intros s H. unfold Path.named in H.
  now apply andb_prop in H.
Qed.

Lemma Path_walk_names entered names :
  Forall (fun s => Path.named s = true) names ->
  Path.walk entered names = rev names ++ entered.
Proof.
  intros Hn. revert entered.
  induction Hn as [|n names Hp Hn IH]; intros entered; [reflexivity|].
  cbn. unfold Path.named in Hp. apply andb_prop in Hp as [Hd _].
  apply negb_true_iff in Hd. apply orb_false_elim in Hd as [Hd H2].
  rewrite Hd, H2, IH. now rewrite <- app_assoc.
Qed.

Lemma Path_render_absolute entered :
  Path.isAbsolute (Path.render entered) = true.
Proof.
  unfold Path.render. destruct entered as [|s entered]; [reflexivity|].
  destruct (rev (s :: entered)) as [|n names] eqn:Hr.
  - apply (f_equal (@length _)) in Hr. rewrite length_rev in Hr.
    discriminate.
  - reflexivity.
Qed.

(** Rendering the directories entered and reading the path again gives the
    same directories. *)
Lemma Path_joinStep_render anywhere entered :
  Forall (fun s => Path.named s = true) entered ->
  Path.joinStep anywhere (Path.render entered) = entered.
Proof.
  intros He. unfold Path.joinStep. rewrite Path_render_absolute.
  unfold Path.render. destruct entered as [|s entered]; [reflexivity|].
  assert (Hrev : Forall (fun s => Path.named s = true) (rev (s :: entered)))
    by now apply Forall_rev.
  pose proof (@Path_segments_joined [] (rev (s :: entered)) eq_refl
                (Path_named_plain Hrev)) as Hseg.
  cbn [app] in Hseg.
  destruct (rev (s :: entered)) as [|n names] eqn:Hr.
  { apply (f_equal (@length _)) in Hr. rewrite length_rev in Hr.
    discriminate. }
  rewrite Hseg.
  change (Path.walk [] ([] :: n :: names)) with (Path.walk [] (n :: names)).
  rewrite Path_walk_names by assumption. rewrite <- Hr.
  now rewrite rev_involutive, app_nil_r.
Qed.

Lemma Path_resolve_from_render entered fragments :
  Forall (fun s => Path.named s = true) entered ->
  fold_left (fun resolved fragment => Path.resolvePath resolved [fragment])
    fragments (Path.render entered)
  = Path.render (fold_left Path.joinStep fragments entered).
Proof.
  revert entered. induction fragments as [|f fragments IH]; intros entered He.
  - reflexivity.
  - cbn [fold_left]. unfold Path.resolvePath at 2. cbn [fold_left].
    rewrite Path_joinStep_render by assumption.
    apply IH. now apply Path_joinStep_named.
Qed.

Lemma Path_absolute_fragment_overrides entered entered' fragment :
  Path.isAbsolute fragment = true ->
  Path.joinStep entered fragment = Path.joinStep entered' fragment.
Proof. unfold Path.joinStep. now intros ->. Qed.

(** C6.  The executor assigns the resolved working directory when it
    starts, from the current directory of the process made absolute, then
    the base fragment, then the further fragments in their order; no event
    assigns it again, and the child process is created in it.  The
    resolution takes the fragments one after the other, each from the path
    resolved so far, and an absolute fragment gives what it and the
    fragments after it give from any start.  The builder calls, [cwd]
    among them, leave the resolved directory as it is; [cwd] stores its
    fragments as they are given. *)
Theorem cwd_is_resolved_once_at_start :
  (forall env events this,
      let resolved :=
        Path.resolvePath (Path.resolvePath (processCwd env) [])
          (FluentCommand.cwdPath this
             :: FluentCommand.extraCwdPathPieces this) in
      FluentCommand.resolvedCwd (this_of (fst (FluentCommand.start env this)))
      = resolved
      /\ FluentCommand.resolvedCwd (this_of (fst (runOrRead env events this)))
         = resolved
      /\ hd_error (snd (runOrRead env events this))
         = Some (SpawnProcess
                   {| SpawnInfo.executable := FluentCommand.executable this;
                      SpawnInfo.commandArgs := FluentCommand.commandArgs this;
                      SpawnInfo.cwd := resolved |}))
  /\ (forall now ev r,
         FluentCommand.resolvedCwd (this_of (fst (handle now ev r)))
         = FluentCommand.resolvedCwd (this_of r))
  /\ (forall base fragments,
         Path.resolvePath base fragments
         = fold_left
             (fun resolved fragment => Path.resolvePath resolved [fragment])
             fragments (Path.resolvePath base []))
  /\ (forall base before fragment after,
         Path.isAbsolute fragment = true ->
         Path.resolvePath base (before ++ fragment :: after)
         = Path.resolvePath fragment after)
  /\ (forall num (N : JsNumber num) (c : BuilderCall num) this,
         FluentCommand.resolvedCwd (call c this)
         = FluentCommand.resolvedCwd this)
  /\ (forall this base extra,
         FluentCommand.cwdPath (FluentCommand.cwd base extra this) = base
         /\ FluentCommand.extraCwdPathPieces
              (FluentCommand.cwd base extra this) = extra).
Proof.
  split; [|split; [|split; [|split; [|split]]]].
  - intros env events this resolved. split; [reflexivity|]. split.
    + rewrite runOrRead_eq. cbn [fst].
      pose proof (settings_deliver events (fst (FluentCommand.start env this)))
        as H.
      now apply (f_equal FluentCommand.resolvedCwd) in H.
    + rewrite runOrRead_eq. reflexivity.
  - intros now ev r.
    pose proof (settings_handle now ev r) as H.
    now apply (f_equal FluentCommand.resolvedCwd) in H.
  - intros base fragments. unfold Path.resolvePath at 1 3.
    cbn [fold_left]. rewrite Path_resolve_from_render; [reflexivity|].
    apply Path_joinStep_named. constructor.
  - intros base before fragment after Habs. unfold Path.resolvePath.
    cbn [fold_left]. rewrite fold_left_app. cbn [fold_left].
    now rewrite (Path_absolute_fragment_overrides _ [] fragment Habs).
  - intros num N c this.
    destruct c as [a rest|k v|k v|p ps|h|h|h|h]; try reflexivity;
      destruct k, v as [|[|d s]|x]; reflexivity.
  - intros this base extra. split; reflexivity.
Qed.

Lemma cwd_is_resolved_once_at_start_witness :
  Path.isAbsolute (lit "/srv") = true
  /\ Path.resolvePath (lit "/home/u")
       ([lit "a"; lit "../b"] ++ lit "/srv" :: [lit "x"])
     = Path.resolvePath (lit "/srv") [lit "x"].
Proof.
  split; [reflexivity|].
  exact (proj1 (proj2 (proj2 (proj2 cwd_is_resolved_once_at_start)))
           (lit "/home/u") [lit "a"; lit "../b"] (lit "/srv") [lit "x"]
           eq_refl).
Defined.

(** * Further properties of the class *)

(** ** Settlement happens once *)

Lemma handle_settled now ev r res :
  result r = Some res -> result (fst (handle now ev r)) = Some res.
Proof.
  destruct r as [this old]. cbn [result]. intros ->.
  destruct ev as [|source chunk|err|code signal]; cbn.
  - reflexivity.
  - now destruct (onChunk source chunk this).
  - reflexivity.
  - now destruct code as [[|?|?]|].
Qed.

Lemma deliver_settled events r res :
  result r = Some res -> result (fst (deliver events r)) = Some res.
Proof.
  revert r. induction events as [|[now ev] events IH]; intros r Hr; cbn.
  - assumption.
  - pose proof (handle_settled now ev r Hr) as H1.
    destruct (handle now ev r) as [r1 e1]. specialize (IH r1 H1).
    now destruct (deliver events r1) as [r2 e2].
Qed.

Lemma handle_settled_quiet now ev r res :
  result r = Some res -> streaming (now, ev) = false ->
  snd (handle now ev r) = [].
Proof.
  destruct r as [this old]. cbn [result]. intros ->.
  destruct ev as [|source chunk|err|code signal]; cbn; try discriminate;
    intros _; [reflexivity|now destruct code as [[|?|?]|]].
Qed.

(** X1.  Once the result is settled no event changes it, whatever comes
    later; an [error] or [close] event that finds it settled has no effect
    and leaves the accumulators as they are.  So the [close] event that
    follows a spawn failure does not replace the outcome of the failure. *)
Theorem settled_result_is_final :
  forall r res,
    result r = Some res ->
    (forall events, result (fst (deliver events r)) = Some res)
    /\ (forall now ev,
           streaming (now, ev) = false ->
           let after := this_of (fst (handle now ev r)) in
           snd (handle now ev r) = []
           /\ FluentCommand.stdoutContents after
              = FluentCommand.stdoutContents (this_of r)
           /\ FluentCommand.stderrContents after
              = FluentCommand.stderrContents (this_of r)
           /\ FluentCommand.outputContents after
              = FluentCommand.outputContents (this_of r)).
Proof.
  intros r res Hr. split.
  - intros events. now apply deliver_settled.
  - intros now ev Hev after. split.
    + now apply handle_settled_quiet with res.
    + destruct (handle_accumulators now ev r) as (Ho & H1 & H2 & _).
      subst after. rewrite Ho, H1, H2.
      assert (Hp : pending r = false) by (unfold pending; now rewrite Hr).
      rewrite Hp. destruct ev; cbn in Hev; try discriminate;
        unfold textOf, textFrom; cbn; now rewrite !app_nil_r.
Qed.

Lemma settled_result_is_final_witness :
  let failed :=
    fst (runOrRead {| now := 0; processCwd := lit "/w" |}
           [(1%Z, EvError (RejObject (CodeString (lit "ENOENT"))
                             (lit "spawn nope ENOENT")))]
           (fcmd (lit "nope") [])) in
  exists res,
    result failed = Some res
    /\ result (fst (deliver [(2%Z, EvClose (Some (-2)%Z) None)] failed))
       = Some res.
Proof.
  eexists. split; [reflexivity|].
  exact (proj1 (settled_result_is_final
                  (fst (runOrRead {| now := 0; processCwd := lit "/w" |}
                          [(1%Z, EvError (RejObject (CodeString (lit "ENOENT"))
                                            (lit "spawn nope ENOENT")))]
                          (fcmd (lit "nope") [])))
                  eq_refl)
           [(2%Z, EvClose (Some (-2)%Z) None)]).
Defined.

(** X2.  While only chunks and the [spawn] event arrive the result stays
    pending: nothing but a [close] or an [error] event settles it. *)
Theorem result_pending_until_close_or_error :
  forall env events this,
    forallb streaming events = true ->
    result (fst (runOrRead env events this)) = None.
Proof.
  intros env events this H. now apply runOrRead_streaming.
Qed.

Lemma result_pending_until_close_or_error_witness :
  result
    (fst (runOrRead {| now := 0; processCwd := lit "/w" |}
            [(1, EvSpawn); (2, EvData Stdout (lit "tick"));
             (3, EvData Stderr (lit "tock"))]%Z
            (fcmd (lit "yes") [])))
  = None.
Proof.
  exact (result_pending_until_close_or_error
           {| now := 0; processCwd := lit "/w" |}
           [(1, EvSpawn); (2, EvData Stdout (lit "tick"));
            (3, EvData Stderr (lit "tock"))]%Z
           (fcmd (lit "yes") []) eq_refl).
Defined.

(** ** [Ok] comes from exit code 0 only *)

Lemma handle_rejects now ev r :
  pending r = true ->
  streaming (now, ev) = false ->
  (forall signal, ev <> EvClose (Some 0%Z) signal) ->
  exists error,
    result (fst (handle now ev r)) = Some (FluentCommand.Err error).
Proof.
  destruct r as [this res]. unfold pending. cbn [result].
  destruct res; [discriminate|]. intros _.
  destruct ev as [|source chunk|err|code signal]; try discriminate;
    intros _ Hnot.
  - destruct err as [| | |[|s|] m]; cbn; eauto.
  - destruct code as [[|p|p]|]; cbn; eauto. now destruct (Hnot signal).
Qed.

Lemma deliver_ok events r value :
  pending r = true ->
  result (fst (deliver events r)) = Some (FluentCommand.Ok value) ->
  exists pre now signal post,
    events = pre ++ (now, EvClose (Some 0%Z) signal) :: post
    /\ forallb streaming pre = true.
Proof.
  revert r. induction events as [|[now ev] events IH]; intros r Hp.
  - cbn. unfold pending in Hp. destruct (result r); discriminate.
  - cbn -[handle].
    pose proof (pending_streaming_step now ev r) as Hstep.
    destruct (streaming (now, ev)) eqn:Hev.
    + rewrite Hp in Hstep. cbn in Hstep.
      destruct (handle now ev r) as [r1 e1]. cbn [fst] in *.
      specialize (IH r1 Hstep).
      destruct (deliver events r1) as [r2 e2]. cbn [fst] in *.
      intros H. destruct (IH H) as (pre & n & sg & post & -> & Hpre).
      exists ((now, ev) :: pre), n, sg, post. split; [reflexivity|].
      cbn [forallb]. now rewrite Hev.
    + assert (Hcases : (exists signal, ev = EvClose (Some 0%Z) signal)
                       \/ forall signal, ev <> EvClose (Some 0%Z) signal).
      { destruct ev as [|source chunk|err|[[|p|p]|] signal];
          try (right; discriminate). left. now exists signal. }
      destruct Hcases as [[signal ->]|Hnot].
      * intros _. exists [], now, signal, events. now split.
      * destruct (@handle_rejects now ev r Hp Hev Hnot) as [error He].
        pose proof (deliver_settled events _ He) as Hfinal.
        destruct (handle now ev r) as [r1 e1]. cbn [fst] in *.
        destruct (deliver events r1) as [r2 e2]. cbn [fst] in *.
        congruence.
Qed.

(** X3.  The result of an execution is [Ok] only if the first event that is
    not a chunk or the [spawn] event is a [close] event with exit code 0:
    an [error] event, another exit code or a signal before it rules [Ok]
    out, whatever comes later. *)
Theorem ok_only_from_exit_code_zero :
  forall env events this value,
    result (fst (runOrRead env events this)) = Some (FluentCommand.Ok value) ->
    exists pre now signal post,
      events = pre ++ (now, EvClose (Some 0%Z) signal) :: post
      /\ forallb streaming pre = true.
Proof.
  intros env events this value. rewrite runOrRead_eq. cbn [fst].
  now apply deliver_ok.
Qed.

Lemma ok_only_from_exit_code_zero_witness :
  exists pre now signal post,
    [(1, EvData Stdout (lit "ok")); (2, EvClose (Some 0) None)]%Z
    = pre ++ (now, EvClose (Some 0%Z) signal) :: post
    /\ forallb streaming pre = true.
Proof.
  exact (ok_only_from_exit_code_zero
           {| now := 0; processCwd := lit "/w" |}
           [(1, EvData Stdout (lit "ok")); (2, EvClose (Some 0) None)]%Z
           (fcmd (lit "echo") [lit "ok"]) eq_refl).
Defined.

(** ** What an execution shows of the command *)

Lemma resolvedCwd_runOrRead env events this :
  FluentCommand.resolvedCwd (this_of (fst (runOrRead env events this)))
  = Path.resolvePath (Path.resolvePath (processCwd env) [])
      (FluentCommand.cwdPath this :: FluentCommand.extraCwdPathPieces this).
Proof.
  rewrite runOrRead_eq. cbn [fst].
  pose proof (settings_deliver events (fst (FluentCommand.start env this)))
    as H.
  now apply (f_equal FluentCommand.resolvedCwd) in H.
Qed.

Lemma spawnInfo_deliver events r :
  FluentCommand.spawnInfo (this_of (fst (deliver events r)))
  = FluentCommand.spawnInfo (this_of r).
Proof.
  change (FluentCommand.spawnInfo (settings (this_of (fst (deliver events r))))
          = FluentCommand.spawnInfo (this_of r)).
  now rewrite settings_deliver.
Qed.

Lemma spawnHandler_deliver events r :
  FluentCommand.spawnHandler (this_of (fst (deliver events r)))
  = FluentCommand.spawnHandler (this_of r).
Proof.
  change (FluentCommand.spawnHandler
            (settings (this_of (fst (deliver events r))))
          = FluentCommand.spawnHandler (this_of r)).
  now rewrite settings_deliver.
Qed.

Lemma handle_spawn_effects now ev r :
  filter isSpawnProcess (snd (handle now ev r)) = []
  /\ (forall h info,
         In (CallSpawn h info) (snd (handle now ev r)) ->
         FluentCommand.spawnHandler (this_of r) = Some h
         /\ info = FluentCommand.spawnInfo (this_of r)).
Proof.
  destruct r as [this res]. fields this.
  destruct ev as [|source chunk|err|code signal].
  - cbn. destruct sh as [h'|]; cbn; split; try reflexivity.
    + intros h info [[= <- <-]|[]]. auto.
    + intros h info [].
  - split.
    + destruct source, oh, eh, uh, silent; reflexivity.
    + intros h info H.
      destruct source, oh, eh, uh, silent; cbn in H;
        repeat (destruct H as [H|H]; try discriminate); contradiction.
  - unfold handle, FluentCommand.reject. cbn [result this_of].
    destruct res as [res|]; [split; [reflexivity|intros h info []]|].
    destruct err as [| | |[|s|] m];
      try (split; [reflexivity|intros h info []]).
    split.
    + destruct eh, uh, silent; reflexivity.
    + intros h info H.
      destruct eh, uh, silent; cbn in H;
        repeat (destruct H as [H|H]; try discriminate); contradiction.
  - unfold handle, FluentCommand.reject, FluentCommand.resolve.
    destruct code as [[|?|?]|]; cbn [result this_of];
      destruct res as [res|]; split; try reflexivity; intros h info [].
Qed.

Lemma deliver_spawn_effects events r :
  filter isSpawnProcess (snd (deliver events r)) = []
  /\ (forall h info,
         In (CallSpawn h info) (snd (deliver events r)) ->
         FluentCommand.spawnHandler (this_of r) = Some h
         /\ info = FluentCommand.spawnInfo (this_of r)).
Proof.
  revert r. induction events as [|[now ev] events IH]; intros r.
  - cbn. split; [reflexivity|intros h info []].
  - pose proof (spawnInfo_deliver [(now, ev)] r) as Hi.
    pose proof (spawnHandler_deliver [(now, ev)] r) as Hh.
    rewrite deliver_one in Hi, Hh.
    cbn -[handle].
    destruct (handle_spawn_effects now ev r) as (Hs & Hc).
    destruct (handle now ev r) as [r1 e1]. cbn [fst snd] in *.
    destruct (IH r1) as (Is & Ic).
    destruct (deliver events r1) as [r2 e2]. cbn [fst snd] in *.
    split.
    + now rewrite filter_app, Hs, Is.
    + intros h info [H|H]%in_app_or; [now apply Hc|].
      rewrite <- Hi, <- Hh. now apply Ic.
Qed.

(** X4.  An execution creates one process, before anything else, with the
    executable and the argument vector of the command in the resolved
    working directory; no event creates another.  Every call of the spawn
    observer is a call of the observer registered on the command, with the
    same executable, arguments and directory. *)
Theorem one_process_per_execution :
  forall env events this,
    let info :=
      {| SpawnInfo.executable := FluentCommand.executable this;
         SpawnInfo.commandArgs := FluentCommand.commandArgs this;
         SpawnInfo.cwd :=
           Path.resolvePath (Path.resolvePath (processCwd env) [])
             (FluentCommand.cwdPath this
                :: FluentCommand.extraCwdPathPieces this) |} in
    let effects := snd (runOrRead env events this) in
    hd_error effects = Some (SpawnProcess info)
    /\ filter isSpawnProcess effects = [SpawnProcess info]
    /\ (forall h shown,
           In (CallSpawn h shown) effects ->
           FluentCommand.spawnHandler this = Some h /\ shown = info).
Proof.
  intros env events this info effects. subst effects.
  rewrite runOrRead_eq. cbn [snd].
  destruct (deliver_spawn_effects events (fst (FluentCommand.start env this)))
    as (Hs & Hc).
  split; [reflexivity|]. split.
  - rewrite filter_app, Hs. reflexivity.
  - intros h shown [H|H]%in_app_or.
    + cbn in H. destruct H as [H|[]]. discriminate.
    + now apply Hc in H.
Qed.

(** X5.  The outcome that settles an execution, [Ok] or [Err], names the
    executable and the argument vector of the command and the working
    directory resolved at the start, the one the process was created in. *)
Theorem outcome_names_what_was_run :
  forall env this pre now ev res,
    forallb streaming pre = true ->
    result (fst (runOrRead env (pre ++ [(now, ev)]) this)) = Some res ->
    FluentCommandSuccess.executable (successOf res)
    = FluentCommand.executable this
    /\ FluentCommandSuccess.commandArgs (successOf res)
       = FluentCommand.commandArgs this
    /\ FluentCommandSuccess.cwd (successOf res)
       = Path.resolvePath (Path.resolvePath (processCwd env) [])
           (FluentCommand.cwdPath this
              :: FluentCommand.extraCwdPathPieces this).
Proof.
  intros env this pre now ev res Hpre Hres.
  assert (Hs : successOf res
               = FluentCommand.commandSuccess now
                   (this_of (fst (runOrRead env (pre ++ [(now, ev)]) this)))).
  { rewrite runOrRead_app, deliver_one in *. cbn [fst] in *.
    apply handle_settles; [|assumption].
    unfold pending. now rewrite runOrRead_streaming. }
  rewrite Hs. cbn [FluentCommand.commandSuccess
                     FluentCommandSuccess.executable
                     FluentCommandSuccess.commandArgs
                     FluentCommandSuccess.cwd].
  rewrite (settings_runOrRead_field FluentCommand.executable),
    (settings_runOrRead_field FluentCommand.commandArgs),
    resolvedCwd_runOrRead; auto.
Qed.

Lemma outcome_names_what_was_run_witness :
  let env := {| now := 0; processCwd := lit "/home/u" |} in
  let this := FluentCommand.cwd (lit "src") [] (fcmd (lit "ls") [lit "-l"]) in
  let res :=
    FluentCommand.Err
      (FluentCommand.commandError 2
         (this_of
            (fst (runOrRead env [(2%Z, EvClose (Some 1%Z) None)] this)))) in
  FluentCommandSuccess.executable (successOf res) = lit "ls"
  /\ FluentCommandSuccess.commandArgs (successOf res) = [lit "-l"]
  /\ FluentCommandSuccess.cwd (successOf res) = lit "/home/u/src".
Proof.
  exact (outcome_names_what_was_run
           {| now := 0; processCwd := lit "/home/u" |}
           (FluentCommand.cwd (lit "src") [] (fcmd (lit "ls") [lit "-l"]))
           [] 2%Z (EvClose (Some 1%Z) None) eq_refl eq_refl).
Defined.

(** ** A command that is executed again *)

Lemma runOrRead_accumulators env events this :
  let after := this_of (fst (runOrRead env events this)) in
  let chunks := chunksOf true events in
  FluentCommand.outputContents after
  = FluentCommand.outputContents this ++ textOf chunks
  /\ FluentCommand.stdoutContents after
     = FluentCommand.stdoutContents this ++ textFrom Stdout chunks
  /\ FluentCommand.stderrContents after
     = FluentCommand.stderrContents this ++ textFrom Stderr chunks.
Proof.
  cbn zeta. rewrite runOrRead_eq. cbn [fst].
  exact (deliver_accumulators events (fst (FluentCommand.start env this))).
Qed.

(** X6.  The executor does not empty the accumulators when it starts: a
    second execution of a command adds its chunks after those of the
    first, in the combined, the stdout and the stderr accumulator, and so
    builds its outcome from the text of both. *)
Theorem accumulators_outlive_an_execution :
  forall env events env' events' this,
    let first := this_of (fst (runOrRead env events this)) in
    let second := this_of (fst (runOrRead env' events' first)) in
    let chunks := chunksOf true events ++ chunksOf true events' in
    FluentCommand.outputContents second
    = FluentCommand.outputContents this ++ textOf chunks
    /\ FluentCommand.stdoutContents second
       = FluentCommand.stdoutContents this ++ textFrom Stdout chunks
    /\ FluentCommand.stderrContents second
       = FluentCommand.stderrContents this ++ textFrom Stderr chunks.
Proof.
  intros env events env' events' this first second chunks.
  destruct (runOrRead_accumulators env' events' first) as (Ho & H1 & H2).
  destruct (runOrRead_accumulators env events this) as (Io & I1 & I2).
  subst second chunks. fold first in Io, I1, I2.
  rewrite Ho, H1, H2, Io, I1, I2, textOf_app, !textFrom_app.
  now rewrite !app_assoc.
Qed.

Lemma handle_streaming_status now ev r :
  streaming (now, ev) = true ->
  FluentCommand.code (this_of (fst (handle now ev r)))
  = FluentCommand.code (this_of r)
  /\ FluentCommand.signal (this_of (fst (handle now ev r)))
     = FluentCommand.signal (this_of r).
Proof.
  destruct ev as [|source chunk|err|code signal]; cbn; try discriminate;
    intros _; [auto|now destruct source].
Qed.

Lemma deliver_streaming_status events r :
  forallb streaming events = true ->
  FluentCommand.code (this_of (fst (deliver events r)))
  = FluentCommand.code (this_of r)
  /\ FluentCommand.signal (this_of (fst (deliver events r)))
     = FluentCommand.signal (this_of r).
Proof.
  revert r. induction events as [|[now ev] events IH]; intros r; cbn -[handle].
  - auto.
  - intros [Hev Hrest]%andb_prop.
    destruct (@handle_streaming_status now ev r Hev) as (Hc & Hs).
    destruct (handle now ev r) as [r1 e1]. cbn [fst] in *.
    destruct (IH r1 Hrest) as (Ic & Is).
    destruct (deliver events r1) as [r2 e2]. cbn [fst] in *.
    split; congruence.
Qed.

Lemma runOrRead_streaming_status env events this :
  forallb streaming events = true ->
  FluentCommand.code (this_of (fst (runOrRead env events this)))
  = FluentCommand.code this
  /\ FluentCommand.signal (this_of (fst (runOrRead env events this)))
     = FluentCommand.signal this.
Proof.
  intros H. rewrite runOrRead_eq. cbn [fst].
  exact (@deliver_streaming_status events
           (fst (FluentCommand.start env this)) H).
Qed.

Lemma call_status num `{JsNumber num} (c : BuilderCall num) this :
  FluentCommand.code (call c this) = FluentCommand.code this
  /\ FluentCommand.signal (call c this) = FluentCommand.signal this.
Proof.
  destruct c as [a rest|k v|k v|p ps|h|h|h|h]; cbn; auto;
    destruct k, v as [|[|d s]|x]; cbn; auto.
Qed.

Lemma chain_status num `{JsNumber num} (calls : list (BuilderCall num)) this :
  FluentCommand.code (chain calls this) = FluentCommand.code this
  /\ FluentCommand.signal (chain calls this) = FluentCommand.signal this.
Proof.
  revert this. induction calls as [|c calls IH]; intros this; cbn; auto.
  destruct (IH (call c this)) as (Ic & Is).
  destruct (call_status c this) as (Cc & Cs).
  unfold chain in *. split; congruence.
Qed.

(** X7.  The error mapper assigns the code of a spawn failure and leaves
    the signal: the outcome of a spawn failure has the signal that the
    command holds when the execution starts.  That is none for a command
    made by [fcmd] and builder calls, and the signal of the [close] event
    of the execution before for a command that is executed again. *)
Theorem spawn_failure_keeps_stored_signal :
  forall env this pre now errCode message,
    forallb streaming pre = true ->
    let failure := (now, EvError (RejObject (CodeString errCode) message)) in
    (exists error,
        result (fst (runOrRead env (pre ++ [failure]) this))
        = Some (FluentCommand.Err error)
        /\ FluentCommandError.code error = Some SPAWN_MISSING_EXE_CODE
        /\ FluentCommandError.signal error = FluentCommand.signal this)
    /\ (forall num (N : JsNumber num) executable initialArgs
               (calls : list (BuilderCall num)),
           FluentCommand.signal (chain calls (fcmd executable initialArgs))
           = None)
    /\ (forall env' pre' now' code signal,
           forallb streaming pre' = true ->
           FluentCommand.signal
             (this_of (fst (runOrRead env'
                              (pre' ++ [(now', EvClose code signal)]) this)))
           = signal).
Proof.
  intros env this pre now errCode message Hpre failure.
  split; [|split].
  - subst failure. rewrite runOrRead_app, deliver_one. cbn [fst].
    rewrite handle_spawn_failure_pending by now apply runOrRead_streaming.
    cbn [fst result]. eexists. split; [reflexivity|]. split; [reflexivity|].
    cbn. now apply runOrRead_streaming_status.
  - intros num N executable initialArgs calls.
    now destruct (chain_status calls (fcmd executable initialArgs)) as (_ & ->).
  - intros env' pre' now' code signal Hpre'.
    rewrite runOrRead_app, deliver_one. cbn [fst].
    rewrite handle_close_pending by now apply runOrRead_streaming.
    reflexivity.
Qed.

Lemma spawn_failure_keeps_stored_signal_witness :
  let env := {| now := 0; processCwd := lit "/w" |} in
  let killed :=
    this_of (fst (runOrRead env [(1%Z, EvClose None (Some (lit "SIGKILL")))]
                    (fcmd (lit "tool") []))) in
  exists error,
    result (fst (runOrRead env
                   ([] ++ [(2%Z, EvError (RejObject (CodeString (lit "EACCES"))
                                            (lit "denied")))]) killed))
    = Some (FluentCommand.Err error)
    /\ FluentCommandError.code error = Some SPAWN_MISSING_EXE_CODE
    /\ FluentCommandError.signal error = Some (lit "SIGKILL").
Proof.
  exact (proj1 (spawn_failure_keeps_stored_signal
                  {| now := 0; processCwd := lit "/w" |}
                  (this_of
                     (fst (runOrRead {| now := 0; processCwd := lit "/w" |}
                             [(1%Z, EvClose None (Some (lit "SIGKILL")))]
                             (fcmd (lit "tool") []))))
                  [] 2%Z (lit "EACCES") (lit "denied") eq_refl)).
Defined.

(** X8.  An [error] event whose error carries no string code settles the
    pending result as [Err] without a diagnostic line: the accumulators
    stay as they are, no observer is called and nothing is written, and
    the outcome has the code and the signal that the command holds; for a
    command made by [fcmd] and builder calls both are absent. *)
Theorem error_without_string_code :
  forall env this pre now err,
    forallb streaming pre = true ->
    diagnostic err = [] ->
    let before := runOrRead env pre this in
    let after := runOrRead env (pre ++ [(now, EvError err)]) this in
    snd after = snd before
    /\ FluentCommand.stdoutContents (this_of (fst after))
       = FluentCommand.stdoutContents (this_of (fst before))
    /\ FluentCommand.stderrContents (this_of (fst after))
       = FluentCommand.stderrContents (this_of (fst before))
    /\ FluentCommand.outputContents (this_of (fst after))
       = FluentCommand.outputContents (this_of (fst before))
    /\ (exists error,
           result (fst after) = Some (FluentCommand.Err error)
           /\ FluentCommandError.code error = FluentCommand.code this
           /\ FluentCommandError.signal error = FluentCommand.signal this)
    /\ (forall num (N : JsNumber num) executable initialArgs
               (calls : list (BuilderCall num)),
           let fresh := chain calls (fcmd executable initialArgs) in
           FluentCommand.code fresh = None
           /\ FluentCommand.signal fresh = None).
Proof.
  intros env this pre now err Hpre Hd before after.
  assert (Hstep : handle now (EvError err) (fst before)
                  = ({| this_of := this_of (fst before);
                        result :=
                          Some (FluentCommand.Err
                                  (FluentCommand.commandError now
                                     (this_of (fst before)))) |}, [])).
  { pose proof (@runOrRead_streaming env pre this Hpre) as Hp.
    fold before in Hp.
    destruct (fst before) as [that res]. cbn in Hp. subst res.
    destruct err as [| | |[|s|] m]; try reflexivity. discriminate. }
  subst after. rewrite runOrRead_app, deliver_one. fold before.
  rewrite Hstep. cbn [fst snd this_of result].
  repeat split; auto.
  - now rewrite app_nil_r.
  - eexists. split; [reflexivity|]. cbn.
    subst before. now apply runOrRead_streaming_status.
  - now destruct (chain_status calls (fcmd executable initialArgs)) as (-> & _).
  - now destruct (chain_status calls (fcmd executable initialArgs)) as (_ & ->).
Qed.

Lemma error_without_string_code_witness :
  let env := {| now := 0; processCwd := lit "/w" |} in
  let this := FluentCommand.onStderr 1 (fcmd (lit "tool") []) in
  let pre := [(1%Z, EvData Stderr (lit "warn"))] in
  let after :=
    FluentCommand.run env
      (pre ++ [(2%Z, EvError (RejObject CodeMissing (lit "boom")))]) this in
  snd after = snd (FluentCommand.run env pre this)
  /\ FluentCommand.stderrContents (this_of (fst after)) = lit "warn".
Proof.
  pose proof (error_without_string_code
                {| now := 0; processCwd := lit "/w" |}
                (FluentCommand.with_shouldBeSilent false
                   (FluentCommand.onStderr 1 (fcmd (lit "tool") [])))
                [(1%Z, EvData Stderr (lit "warn"))] 2%Z
                (RejObject CodeMissing (lit "boom")) eq_refl eq_refl)
    as (He & _ & Hs & _).
  split; [exact He|exact Hs].
Defined.

(** ** Options are arguments *)

Lemma addArgs_addArgs a b this :
  FluentCommand.addArgs b (FluentCommand.addArgs a this)
  = FluentCommand.addArgs (a ++ b) this.
Proof.
  unfold FluentCommand.addArgs, FluentCommand.with_commandArgs. cbn.
  now rewrite <- app_assoc.
Qed.

(** X9.  [opt] and [option] do to a command what [args] does with their
    tokens, and nothing when they have none: with an empty key and no
    value, or the empty string as value, the command stays as it is; with
    an empty key the value alone is added, without dashes. *)
Theorem options_are_args_of_their_tokens :
  forall num (N : JsNumber num) key (value : OptionValue num) this,
    let asArgs (c : BuilderCall num) :=
      match tokens c with
      | [] => this
      | anArg :: extraArgs => FluentCommand.args anArg extraArgs this
      end in
    FluentCommand.opt key value this = asArgs (CallOpt key value)
    /\ FluentCommand.option key value this = asArgs (CallOption key value)
    /\ (valueTokens value = [] ->
        FluentCommand.opt [] value this = this
        /\ FluentCommand.option [] value this = this)
    /\ FluentCommand.opt [] value this = FluentCommand.option [] value this.
Proof.
  intros num N key value this asArgs. subst asArgs.
  unfold FluentCommand.opt, FluentCommand.option, FluentCommand.args,
    FluentCommand.addOptionPair.
  repeat split.
  - destruct key, value as [|[|c s]|x]; cbn [tokens keyTokens valueTokens app
      length Nat.ltb Nat.leb]; rewrite ?addArgs_addArgs; reflexivity.
  - destruct key, value as [|[|c s]|x]; cbn [tokens keyTokens valueTokens app
      length Nat.ltb Nat.leb]; rewrite ?addArgs_addArgs; reflexivity.
  - destruct value as [|[|c s]|x]; cbn in *; congruence.
  - destruct value as [|[|c s]|x]; cbn in *; congruence.
Qed.

Lemma options_are_args_of_their_tokens_witness :
  FluentCommand.opt [] (@str Z []) (fcmd (lit "ls") []) = fcmd (lit "ls") []
  /\ FluentCommand.option [] (@str Z []) (fcmd (lit "ls") [])
     = fcmd (lit "ls") [].
Proof.
  exact (proj1 (proj2 (proj2
           (options_are_args_of_their_tokens Z_JsNumber [] (str [])
              (fcmd (lit "ls") []))))
           eq_refl).
Defined.

(** ** White space at the end *)

Lemma trimEnd_whitespace ws :
  forallb isWhiteSpace ws = true -> trimEnd ws = [].
Proof.
  induction ws as [|c ws IH]; [reflexivity|]. cbn.
  intros [Hc Hws]%andb_prop. now rewrite IH, Hc.
Qed.

Lemma trimEnd_app_whitespace s ws :
  forallb isWhiteSpace ws = true -> trimEnd (s ++ ws) = trimEnd s.
Proof.
  intros Hws. induction s as [|c s IH]; cbn.
  - now apply trimEnd_whitespace.
  - now rewrite IH.
Qed.

Lemma trimEnd_empty s :
  trimEnd s = [] <-> forallb isWhiteSpace s = true.
Proof.
  split; [|apply trimEnd_whitespace].
  induction s as [|c s IH]; [reflexivity|]. cbn.
  destruct (trimEnd s) as [|k kept]; [|discriminate].
  destruct (isWhiteSpace c); [|discriminate]. intros _. now apply IH.
Qed.



(** X11.  A text field of an outcome is empty exactly when its accumulator
    holds white space only, and trimming what is trimmed changes nothing;
    white space before other text is kept. *)
Theorem outcome_text_empty_iff_whitespace :
  forall now this,
    (FluentCommandSuccess.stdout (FluentCommand.commandSuccess now this) = []
     <-> forallb isWhiteSpace (FluentCommand.stdoutContents this) = true)
    /\ (FluentCommandSuccess.stderr (FluentCommand.commandSuccess now this) = []
        <-> forallb isWhiteSpace (FluentCommand.stderrContents this) = true)
    /\ (FluentCommandSuccess.output (FluentCommand.commandSuccess now this) = []
        <-> forallb isWhiteSpace (FluentCommand.outputContents this) = true)
    /\ (forall s, trimEnd (trimEnd s) = trimEnd s)
    /\ (forall ws c s,
           isWhiteSpace c = false ->
           trimEnd (ws ++ c :: s) = ws ++ trimEnd (c :: s)).
Proof.
  intros now this. cbn [FluentCommand.commandSuccess
                          FluentCommandSuccess.stdout
                          FluentCommandSuccess.stderr
                          FluentCommandSuccess.output].
  split; [apply trimEnd_empty|]. split; [apply trimEnd_empty|].
  split; [apply trimEnd_empty|]. split.
  - intros s. destruct (trimEnd_split s) as (ws & Hs & Hws).
    pose proof (@trimEnd_app_whitespace (trimEnd s) ws Hws) as H.
    rewrite <- Hs in H. symmetry. exact H.
  - intros ws c s Hc. induction ws as [|w ws IH]; [reflexivity|].
    cbn [app]. change (trimEnd (w :: ws ++ c :: s))
      with (match trimEnd (ws ++ c :: s) with
            | [] => if isWhiteSpace w then [] else [w]
            | kept => w :: kept
            end).
    rewrite IH. destruct (trimEnd (c :: s)) as [|k kept] eqn:Ht.
    + apply trimEnd_empty in Ht. cbn in Ht. now rewrite Hc in Ht.
    + now destruct ws.
Qed.

Lemma outcome_text_empty_iff_whitespace_witness :
  isWhiteSpace 97 = false
  /\ trimEnd ([32%N; 32%N] ++ 97%N :: [10%N])
     = [32%N; 32%N] ++ trimEnd (97%N :: [10%N]).
Proof.
  split; [reflexivity|].
  exact (proj2 (proj2 (proj2 (proj2
           (outcome_text_empty_iff_whitespace 0%Z (fcmd [] [])))))
           [32%N; 32%N] 97%N [10%N] eq_refl).
Defined.

(** ** [read] without observers *)

Lemma unobserved_silent_settings a b :
  settings a = settings b -> unobserved_silent b -> unobserved_silent a.
Proof.
  intros H (H1 & H2 & H3 & H4 & H5).
  pose proof (f_equal FluentCommand.spawnHandler H) as E1.
  pose proof (f_equal FluentCommand.stdoutHandler H) as E2.
  pose proof (f_equal FluentCommand.stderrHandler H) as E3.
  pose proof (f_equal FluentCommand.outputHandler H) as E4.
  pose proof (f_equal FluentCommand.shouldBeSilent H) as E5.
  cbn in E1, E2, E3, E4, E5. unfold unobserved_silent.
  repeat split; congruence.
Qed.

Lemma handle_unobserved_silent now ev r :
  unobserved_silent (this_of r) -> snd (handle now ev r) = [].
Proof.
  destruct r as [this res]. fields this. unfold unobserved_silent. cbn.
  intros (-> & -> & -> & -> & ->).
  destruct ev as [|source chunk|err|code signal].
  - reflexivity.
  - now destruct source.
  - destruct res as [res|]; [reflexivity|].
    destruct err as [| | |[|s|] m]; reflexivity.
  - destruct code as [[|?|?]|], res; reflexivity.
Qed.

Lemma deliver_unobserved_silent events r :
  unobserved_silent (this_of r) -> snd (deliver events r) = [].
Proof.
  revert r. induction events as [|[now ev] events IH]; intros r Hr.
  - reflexivity.
  - cbn -[handle].
    pose proof (handle_unobserved_silent now ev r Hr) as He.
    pose proof (unobserved_silent_settings (settings_handle now ev r) Hr)
      as Hr1.
    destruct (handle now ev r) as [r1 e1]. cbn [fst snd] in *.
    specialize (IH r1 Hr1).
    destruct (deliver events r1) as [r2 e2]. cbn [fst snd] in *.
    now subst.
Qed.

(** X12.  [read] on a command without observers does nothing that shows
    outside but create the process: whatever the events, chunks, a spawn
    failure with its diagnostic line, or the end of the process, no
    observer is called and nothing is written. *)
Theorem read_without_observers_is_quiet :
  forall env events this,
    FluentCommand.spawnHandler this = None ->
    FluentCommand.stdoutHandler this = None ->
    FluentCommand.stderrHandler this = None ->
    FluentCommand.outputHandler this = None ->
    snd (FluentCommand.read env events this)
    = [SpawnProcess
         {| SpawnInfo.executable := FluentCommand.executable this;
            SpawnInfo.commandArgs := FluentCommand.commandArgs this;
            SpawnInfo.cwd :=
              Path.resolvePath (Path.resolvePath (processCwd env) [])
                (FluentCommand.cwdPath this
                   :: FluentCommand.extraCwdPathPieces this) |}].
Proof.
  intros env events this H1 H2 H3 H4.
  unfold FluentCommand.read. rewrite runOrRead_eq. cbn [snd].
  rewrite deliver_unobserved_silent; [reflexivity|].
  unfold unobserved_silent. cbn. auto.
Qed.

Lemma read_without_observers_is_quiet_witness :
  snd (FluentCommand.read {| now := 0; processCwd := lit "/w" |}
         [(1, EvSpawn); (2, EvData Stdout (lit "a"));
          (3, EvData Stderr (lit "b")); (4, EvClose (Some 3) None)]%Z
         (fcmd (lit "tool") [lit "x"]))
  = [SpawnProcess
       {| SpawnInfo.executable := lit "tool";
          SpawnInfo.commandArgs := [lit "x"];
          SpawnInfo.cwd := lit "/w" |}].
Proof.
  exact (read_without_observers_is_quiet
           {| now := 0; processCwd := lit "/w" |}
           [(1, EvSpawn); (2, EvData Stdout (lit "a"));
            (3, EvData Stderr (lit "b")); (4, EvClose (Some 3) None)]%Z
           (fcmd (lit "tool") [lit "x"]) eq_refl eq_refl eq_refl eq_refl).
Defined.

(** * The earlier variant of the class *)

Lemma Earlier_deliver_app silent events later r :
  Earlier.deliver silent (events ++ later) r
  = (fst (Earlier.deliver silent later
            (fst (Earlier.deliver silent events r))),
     snd (Earlier.deliver silent events r)
       ++ snd (Earlier.deliver silent later
                 (fst (Earlier.deliver silent events r)))).
Proof.
  revert r. induction events as [|[now ev] events IH]; intros r; cbn.
  - now destruct (Earlier.deliver silent later r).
  - destruct (Earlier.handle silent now ev r) as [r1 e1]. rewrite IH.
    destruct (Earlier.deliver silent events r1) as [r2 e2]; cbn.
    destruct (Earlier.deliver silent later r2) as [r3 e3]; cbn.
    now rewrite app_assoc.
Qed.

Lemma Earlier_deliver_one silent now ev r :
  Earlier.deliver silent [(now, ev)] r = Earlier.handle silent now ev r.
Proof.
  cbn. destruct (Earlier.handle silent now ev r). now rewrite app_nil_r.
Qed.

Lemma Earlier_runOrRead_eq silent env events this :
  Earlier.runOrRead silent env events this
  = (fst (Earlier.deliver silent events (fst (Earlier.start env this))),
     snd (Earlier.start env this)
       ++ snd (Earlier.deliver silent events (fst (Earlier.start env this)))).
Proof.
  unfold Earlier.runOrRead. destruct (Earlier.start env this) as [r e].
  cbn [fst snd]. now destruct (Earlier.deliver silent events r).
Qed.

Lemma Earlier_runOrRead_app silent env events later this :
  Earlier.runOrRead silent env (events ++ later) this
  = (fst (Earlier.deliver silent later
            (fst (Earlier.runOrRead silent env events this))),
     snd (Earlier.runOrRead silent env events this)
       ++ snd (Earlier.deliver silent later
                 (fst (Earlier.runOrRead silent env events this)))).
Proof.
  rewrite !Earlier_runOrRead_eq, Earlier_deliver_app. cbn [fst snd].
  now rewrite app_assoc.
Qed.

(** ** The combined output of the earlier variant *)

Lemma Earlier_handle_output silent now ev r :
  let r' := fst (Earlier.handle silent now ev r) in
  Earlier.outputContents (Earlier.this_of r')
  = Earlier.outputContents (Earlier.this_of r)
  /\ (forall res,
         Earlier.result r' = Some res ->
         Earlier.result r = Some res
         \/ Earlier.Success.output (earlierSuccessOf res)
            = trimEnd (Earlier.outputContents (Earlier.this_of r))).
Proof.
  destruct r as [this old]. earlier_fields this.
  destruct ev as [|source chunk|err|code signal]; cbn.
  - auto.
  - destruct source; cbn; auto.
  - unfold Earlier.reject; cbn. destruct old as [old|]; cbn; [auto|].
    destruct err as [| | |[|s|] m]; cbn; split; auto;
      intros res [= <-]; auto.
  - destruct code as [[|p|p]|], signal as [s|];
      unfold Earlier.reject, Earlier.resolve; cbn;
      destruct old as [old|]; cbn; split; auto; intros res [= <-]; auto.
Qed.

Lemma Earlier_deliver_output silent events r :
  let r' := fst (Earlier.deliver silent events r) in
  Earlier.outputContents (Earlier.this_of r')
  = Earlier.outputContents (Earlier.this_of r)
  /\ (forall res,
         Earlier.result r' = Some res ->
         Earlier.result r = Some res
         \/ Earlier.Success.output (earlierSuccessOf res)
            = trimEnd (Earlier.outputContents (Earlier.this_of r))).
Proof.
  revert r. induction events as [|[now ev] events IH]; intros r.
  - cbn. auto.
  - cbn -[Earlier.handle].
    destruct (Earlier_handle_output silent now ev r) as (Ho & Hr).
    destruct (Earlier.handle silent now ev r) as [r1 e1]. cbn [fst] in *.
    destruct (IH r1) as (Io & Ir).
    destruct (Earlier.deliver silent events r1) as [r2 e2]. cbn [fst] in *.
    split; [congruence|].
    intros res Hres. destruct (Ir res Hres) as [H|H].
    + apply Hr in H. exact H.
    + right. congruence.
Qed.

Lemma earlierCall_output num `{JsNumber num} (c : EarlierCall num) this :
  Earlier.outputContents (earlierCall c this) = Earlier.outputContents this.
Proof.
  destruct c as [a rest|k v|k v|p ps|h|h|h]; cbn; auto;
    destruct k, v as [|[|d s]|x]; cbn; auto.
Qed.

Lemma earlierChain_output num `{JsNumber num} (calls : list (EarlierCall num))
    this :
  Earlier.outputContents (earlierChain calls this)
  = Earlier.outputContents this.
Proof.
  revert this. induction calls as [|c calls IH]; intros this; cbn; auto.
  unfold earlierChain in IH. now rewrite IH, earlierCall_output.
Qed.

(** X13.  The earlier variant declares the combined accumulator and never
    assigns it: no execution changes it, and the output of every outcome
    is its initial value trimmed.  For a command made by the constructor
    and builder calls the output of every outcome is empty, whatever the
    process writes. *)
Theorem earlier_output_is_never_filled :
  forall silent env events this,
    let r := fst (Earlier.runOrRead silent env events this) in
    Earlier.outputContents (Earlier.this_of r) = Earlier.outputContents this
    /\ (forall res,
           Earlier.result r = Some res ->
           Earlier.Success.output (earlierSuccessOf res)
           = trimEnd (Earlier.outputContents this))
    /\ (forall num (N : JsNumber num) executable initialArgs
               (calls : list (EarlierCall num)) res,
           Earlier.result
             (fst (Earlier.runOrRead silent env events
                     (earlierChain calls
                        (Earlier.constructor executable initialArgs))))
           = Some res ->
           Earlier.Success.output (earlierSuccessOf res) = []).
Proof.
  assert (Hgen : forall silent env events this,
             let r := fst (Earlier.runOrRead silent env events this) in
             Earlier.outputContents (Earlier.this_of r)
             = Earlier.outputContents this
             /\ (forall res,
                    Earlier.result r = Some res ->
                    Earlier.Success.output (earlierSuccessOf res)
                    = trimEnd (Earlier.outputContents this))).
  { intros silent env events this r. subst r.
    rewrite Earlier_runOrRead_eq. cbn [fst].
    destruct (Earlier_deliver_output silent events
                (fst (Earlier.start env this))) as (Ho & Hr).
    split; [exact Ho|].
    intros res Hres. destruct (Hr res Hres) as [H|H]; [discriminate|exact H]. }
  intros silent env events this r. split; [apply Hgen|]. split; [apply Hgen|].
  intros num N executable initialArgs calls res Hres.
  apply Hgen in Hres. now rewrite Hres, earlierChain_output.
Qed.

Lemma earlier_output_is_never_filled_witness :
  let res :=
    Earlier.Ok
      {| Earlier.Success.cmd := lit "echo";
         Earlier.Success.cmdArgs := [lit "hi"];
         Earlier.Success.cwd := lit "/w";
         Earlier.Success.duration := 2;
         Earlier.Success.output := [];
         Earlier.Success.stderr := [];
         Earlier.Success.stdout := lit "hi" |} in
  Earlier.result
    (fst (Earlier.runOrRead true {| now := 0; processCwd := lit "/w" |}
            [(1, EvData Stdout (lit "hi")); (2, EvClose (Some 0) None)]%Z
            (Earlier.constructor (lit "echo") [lit "hi"])))
  = Some res
  /\ Earlier.Success.output (earlierSuccessOf res)
     = trimEnd
         (Earlier.outputContents (Earlier.constructor (lit "echo") [lit "hi"])).
Proof.
  split; [reflexivity|].
  exact (proj1 (proj2 (earlier_output_is_never_filled true
                         {| now := 0; processCwd := lit "/w" |}
                         [(1, EvData Stdout (lit "hi"));
                          (2, EvClose (Some 0) None)]%Z
                         (Earlier.constructor (lit "echo") [lit "hi"])))
           _ eq_refl).
Defined.

(** ** A spawn failure in the earlier variant *)

Lemma Earlier_handle_streaming silent now ev r :
  streaming (now, ev) = true ->
  let r' := fst (Earlier.handle silent now ev r) in
  Earlier.result r' = Earlier.result r
  /\ Earlier.code (Earlier.this_of r') = Earlier.code (Earlier.this_of r)
  /\ Earlier.signal (Earlier.this_of r') = Earlier.signal (Earlier.this_of r).
Proof.
  destruct ev as [|source chunk|err|code signal]; cbn; try discriminate;
    intros _; [auto|now destruct source].
Qed.

Lemma Earlier_deliver_streaming silent events r :
  forallb streaming events = true ->
  let r' := fst (Earlier.deliver silent events r) in
  Earlier.result r' = Earlier.result r
  /\ Earlier.code (Earlier.this_of r') = Earlier.code (Earlier.this_of r)
  /\ Earlier.signal (Earlier.this_of r') = Earlier.signal (Earlier.this_of r).
Proof.
  revert r. induction events as [|[now ev] events IH]; intros r;
    cbn -[Earlier.handle].
  - auto.
  - intros [Hev Hrest]%andb_prop.
    destruct (@Earlier_handle_streaming silent now ev r Hev) as (Hr & Hc & Hs).
    destruct (Earlier.handle silent now ev r) as [r1 e1]. cbn [fst] in *.
    destruct (IH r1 Hrest) as (Ir & Ic & Is).
    destruct (Earlier.deliver silent events r1) as [r2 e2]. cbn [fst] in *.
    repeat split; congruence.
Qed.

Lemma Earlier_runOrRead_streaming silent env events this :
  forallb streaming events = true ->
  let r := fst (Earlier.runOrRead silent env events this) in
  Earlier.result r = None
  /\ Earlier.code (Earlier.this_of r) = Earlier.code this
  /\ Earlier.signal (Earlier.this_of r) = Earlier.signal this.
Proof.
  intros H. cbn zeta. rewrite Earlier_runOrRead_eq. cbn [fst].
  exact (@Earlier_deliver_streaming silent events
           (fst (Earlier.start env this)) H).
Qed.

Lemma earlierCall_status num `{JsNumber num} (c : EarlierCall num) this :
  Earlier.code (earlierCall c this) = Earlier.code this
  /\ Earlier.signal (earlierCall c this) = Earlier.signal this.
Proof.
  destruct c as [a rest|k v|k v|p ps|h|h|h]; cbn; auto;
    destruct k, v as [|[|d s]|x]; cbn; auto.
Qed.

Lemma earlierChain_status num `{JsNumber num} (calls : list (EarlierCall num))
    this :
  Earlier.code (earlierChain calls this) = Earlier.code this
  /\ Earlier.signal (earlierChain calls this) = Earlier.signal this.
Proof.
  revert this. induction calls as [|c calls IH]; intros this; cbn; auto.
  destruct (IH (earlierCall c this)) as (Ic & Is).
  destruct (earlierCall_status c this) as (Cc & Cs).
  unfold earlierChain in *. split; congruence.
Qed.

(** X14.  In the earlier variant a spawn failure has no code of its own:
    the error mapper puts the line [code: message] at the end of the
    stderr accumulator and does nothing else, so no observer is called and
    nothing is written, also under [run], and the outcome has the code
    that the command holds, which is none for a command made by the
    constructor and builder calls. *)
Theorem earlier_spawn_failure_has_no_sentinel :
  forall silent env this pre now errCode message,
    forallb streaming pre = true ->
    let line := errCode ++ lit ": " ++ message in
    let failure := (now, EvError (RejObject (CodeString errCode) message)) in
    let before := Earlier.runOrRead silent env pre this in
    let after := Earlier.runOrRead silent env (pre ++ [failure]) this in
    snd after = snd before
    /\ Earlier.stderrContents (Earlier.this_of (fst after))
       = Earlier.stderrContents (Earlier.this_of (fst before)) ++ line
    /\ Earlier.stdoutContents (Earlier.this_of (fst after))
       = Earlier.stdoutContents (Earlier.this_of (fst before))
    /\ (exists error,
           Earlier.result (fst after) = Some (Earlier.Err error)
           /\ Earlier.Failure.code error = Earlier.code this
           /\ Earlier.Success.stderr (Earlier.Failure.success error)
              = trimEnd
                  (Earlier.stderrContents (Earlier.this_of (fst before))
                     ++ line))
    /\ (forall num (N : JsNumber num) executable initialArgs
               (calls : list (EarlierCall num)),
           Earlier.code
             (earlierChain calls (Earlier.constructor executable initialArgs))
           = None).
Proof.
  intros silent env this pre now errCode message Hpre line failure before
    after.
  destruct (@Earlier_runOrRead_streaming silent env pre this Hpre)
    as (Hr & Hc & _).
  fold before in Hr, Hc.
  subst after failure. rewrite Earlier_runOrRead_app, Earlier_deliver_one.
  fold before. destruct (fst before) as [that res]. cbn in Hr, Hc. subst res.
  cbn. rewrite app_nil_r.
  split; [reflexivity|]. split; [reflexivity|]. split; [reflexivity|]. split.
  - eexists. split; [reflexivity|]. split; [exact Hc|reflexivity].
  - intros num N executable initialArgs calls.
    now destruct (earlierChain_status calls
                    (Earlier.constructor executable initialArgs)) as (-> & _).
Qed.

Lemma earlier_spawn_failure_has_no_sentinel_witness :
  let env := {| now := 0; processCwd := lit "/w" |} in
  let this := Earlier.onStderr 1 (Earlier.constructor (lit "nope") []) in
  let failure :=
    (1%Z, EvError (RejObject (CodeString (lit "ENOENT")) (lit "spawn nope"))) in
  snd (Earlier.run env ([] ++ [failure]) this) = snd (Earlier.run env [] this)
  /\ exists error,
       Earlier.result (fst (Earlier.run env ([] ++ [failure]) this))
       = Some (Earlier.Err error)
       /\ Earlier.Failure.code error = None
       /\ Earlier.Success.stderr (Earlier.Failure.success error)
          = trimEnd ([] ++ lit "ENOENT: spawn nope").
Proof.
  pose proof (earlier_spawn_failure_has_no_sentinel false
                {| now := 0; processCwd := lit "/w" |}
                (Earlier.onStderr 1 (Earlier.constructor (lit "nope") []))
                [] 1%Z (lit "ENOENT") (lit "spawn nope") eq_refl)
    as (He & _ & _ & Hr & _).
  split; [exact He|exact Hr].
Defined.

(** ** The earlier variant and the class on the same events *)

Lemma call_asClass num `{JsNumber num} silent o (c : EarlierCall num) e :
  call (sameCall c) (asClass silent o e) = asClass silent o (earlierCall c e).
Proof.
  earlier_fields e.
  destruct c as [a rest|k v|k v|p ps|h|h|h]; try reflexivity;
    destruct k, v as [|[|d s]|x]; reflexivity.
Qed.

Lemma chain_asClass num `{JsNumber num} silent o
    (calls : list (EarlierCall num)) e :
  chain (map sameCall calls) (asClass silent o e)
  = asClass silent o (earlierChain calls e).
Proof.
  revert e. induction calls as [|c calls IH]; intros e; [reflexivity|].
  cbn. rewrite call_asClass. apply IH.
Qed.

Lemma handle_asClass_streaming silent o e now ev :
  streaming (now, ev) = true ->
  let rc := handle now ev {| this_of := asClass silent o e; result := None |} in
  let re :=
    Earlier.handle silent now ev
      {| Earlier.this_of := e; Earlier.result := None |} in
  (exists o',
      fst rc
      = {| this_of := asClass silent o' (Earlier.this_of (fst re));
           result := None |})
  /\ Earlier.result (fst re) = None
  /\ filter isWrite (snd rc) = filter isWrite (snd re)
  /\ filter notWrite (snd rc) = filter notWrite (snd re).
Proof.
  earlier_fields e.
  destruct ev as [|source chunk|err|code signal]; cbn; try discriminate;
    intros _.
  - split; [now exists o|]. auto.
  - destruct source; (split; [now exists (o ++ chunk)|]);
      destruct oh, eh, uh, silent; cbn; auto.
Qed.

Lemma deliver_asClass_streaming silent events :
  forallb streaming events = true ->
  forall o e,
    let rc :=
      deliver events {| this_of := asClass silent o e; result := None |} in
    let re :=
      Earlier.deliver silent events
        {| Earlier.this_of := e; Earlier.result := None |} in
    (exists o',
        fst rc
        = {| this_of := asClass silent o' (Earlier.this_of (fst re));
             result := None |})
    /\ Earlier.result (fst re) = None
    /\ filter isWrite (snd rc) = filter isWrite (snd re)
    /\ filter notWrite (snd rc) = filter notWrite (snd re).
Proof.
  induction events as [|[now ev] events IH]; intros Hs o e.
  - cbn. split; [now exists o|]. auto.
  - cbn [forallb] in Hs. apply andb_prop in Hs as [Hev Hrest].
    cbn -[handle Earlier.handle].
    destruct (@handle_asClass_streaming silent o e now ev Hev)
      as ((o1 & H1) & Hr1 & Hw1 & Hn1).
    destruct (handle now ev _) as [rc1 ec1].
    destruct (Earlier.handle silent now ev _) as [[e1 res1] ee1].
    cbn [fst snd Earlier.this_of Earlier.result] in *. subst rc1 res1.
    destruct (IH Hrest o1 e1) as ((o2 & H2) & Hr2 & Hw2 & Hn2).
    destruct (deliver events _) as [rc2 ec2].
    destruct (Earlier.deliver silent events _) as [re2 ee2].
    cbn [fst snd] in *.
    split; [now exists o2|]. split; [assumption|].
    rewrite !filter_app. split; congruence.
Qed.

Lemma close_asClass silent o e now code signal :
  Earlier.code e = None ->
  Earlier.signal e = None ->
  let rc :=
    handle now (EvClose code signal)
      {| this_of := asClass silent o e; result := None |} in
  let re :=
    Earlier.handle silent now (EvClose code signal)
      {| Earlier.this_of := e; Earlier.result := None |} in
  result (fst rc) = option_map (asResult (trimEnd o)) (Earlier.result (fst re))
  /\ FluentCommand.outputContents (this_of (fst rc)) = o
  /\ snd rc = [] /\ snd re = [].
Proof.
  earlier_fields e. cbn. intros -> ->.
  destruct code as [[|p|p]|], signal as [s|]; cbn; auto.
Qed.

Lemma runs_asClass num `{JsNumber num} executable initialArgs
    (calls : list (EarlierCall num)) silent env pre now code signal :
  forallb streaming pre = true ->
  let events := pre ++ [(now, EvClose code signal)] in
  let re :=
    Earlier.runOrRead silent env events
      (earlierChain calls (Earlier.constructor executable initialArgs)) in
  let rc :=
    runOrRead env events
      (FluentCommand.with_shouldBeSilent silent
         (chain (map sameCall calls) (fcmd executable initialArgs))) in
  result (fst rc)
  = option_map
      (asResult (trimEnd (FluentCommand.outputContents (this_of (fst rc)))))
      (Earlier.result (fst re))
  /\ filter isWrite (snd rc) = filter isWrite (snd re)
  /\ filter notWrite (snd rc) = filter notWrite (snd re).
Proof.
  intros Hpre events re rc. subst rc re events.
  change (fcmd executable initialArgs)
    with (asClass true [] (Earlier.constructor executable initialArgs)).
  rewrite chain_asClass.
  set (e := earlierChain calls (Earlier.constructor executable initialArgs)).
  change (FluentCommand.with_shouldBeSilent silent (asClass true [] e))
    with (asClass silent [] e).
  rewrite runOrRead_eq, Earlier_runOrRead_eq, deliver_app, Earlier_deliver_app.
  rewrite deliver_one, Earlier_deliver_one. cbn [fst snd].
  set (e0 := Earlier.this_of (fst (Earlier.start env e))).
  change (fst (FluentCommand.start env (asClass silent [] e)))
    with {| this_of := asClass silent [] e0; result := None |}.
  change (fst (Earlier.start env e))
    with {| Earlier.this_of := e0; Earlier.result := None |}.
  change (snd (FluentCommand.start env (asClass silent [] e)))
    with (snd (Earlier.start env e)).
  destruct (@deliver_asClass_streaming silent pre Hpre [] e0)
    as ((o & Hc) & Hr & Hw & Hn).
  destruct (@Earlier_deliver_streaming silent pre
              {| Earlier.this_of := e0; Earlier.result := None |} Hpre)
    as (_ & Hcode & Hsignal).
  destruct (earlierChain_status calls
              (Earlier.constructor executable initialArgs))
    as (Hcode0 & Hsignal0).
  fold e in Hcode0, Hsignal0.
  destruct (deliver pre _) as [rc1 ec1].
  destruct (Earlier.deliver silent pre _) as [[e1 res1] ee1].
  cbn [fst snd Earlier.this_of Earlier.result] in *. subst rc1 res1.
  assert (Hc1 : Earlier.code e1 = None).
  { rewrite Hcode. subst e0. cbn. exact Hcode0. }
  assert (Hs1 : Earlier.signal e1 = None).
  { rewrite Hsignal. subst e0. cbn. exact Hsignal0. }
  destruct (@close_asClass silent o e1 now code signal Hc1 Hs1)
    as (Hres & Hout & Hec & Hee).
  rewrite Hout, Hres, Hec, Hee, !filter_app, Hw, Hn. auto.
Qed.

(** X15.  For the same constructor arguments, the same builder calls and
    the same events of a process that ends with a [close] event after
    chunks and the [spawn] event only, the class settles its result as the
    earlier variant does: [Ok] where it is [Ok] and [Err] where it is
    [Err], with the same stdout, stderr, working directory, duration, code
    and signal, the executable and the arguments under their new names.
    The output alone differs, which the class fills. *)
Theorem class_settles_as_earlier_variant :
  forall num (N : JsNumber num) executable initialArgs
         (calls : list (EarlierCall num)) silent env pre now code signal,
    forallb streaming pre = true ->
    let events := pre ++ [(now, EvClose code signal)] in
    let re :=
      fst (Earlier.runOrRead silent env events
             (earlierChain calls
                (Earlier.constructor executable initialArgs))) in
    let rc :=
      fst (runOrRead env events
             (FluentCommand.with_shouldBeSilent silent
                (chain (map sameCall calls) (fcmd executable initialArgs)))) in
    result rc
    = option_map
        (asResult (trimEnd (FluentCommand.outputContents (this_of rc))))
        (Earlier.result re).
Proof.
  intros num N executable initialArgs calls silent env pre now code signal
    Hpre.
  apply (@runs_asClass num N executable initialArgs calls silent env pre now
           code signal Hpre).
Qed.

Lemma class_settles_as_earlier_variant_witness :
  let env := {| now := 0; processCwd := lit "/w" |} in
  let pre := [(1, EvData Stdout (lit "a ")); (2, EvData Stderr (lit "b"))]%Z in
  let events := pre ++ [(3%Z, EvClose (Some 1%Z) None)] in
  let re :=
    fst (Earlier.runOrRead true env events
           (earlierChain [@ECallOpt Z (lit "v") undefined]
              (Earlier.constructor (lit "tool") []))) in
  let rc :=
    fst (runOrRead env events
           (FluentCommand.with_shouldBeSilent true
              (chain (map sameCall [@ECallOpt Z (lit "v") undefined])
                 (fcmd (lit "tool") [])))) in
  forallb streaming pre = true
  /\ result rc
     = option_map
         (asResult (trimEnd (FluentCommand.outputContents (this_of rc))))
         (Earlier.result re).
Proof.
  split; [reflexivity|].
  exact (class_settles_as_earlier_variant Z_JsNumber (lit "tool") []
           [ECallOpt (lit "v") undefined] true
           {| now := 0; processCwd := lit "/w" |}
           [(1, EvData Stdout (lit "a ")); (2, EvData Stderr (lit "b"))]%Z
           3%Z (Some 1%Z) None eq_refl).
Defined.

(** X16.  On such events the two variants have the same effects but for
    the place of the writes: the same writes to the streams of the
    controlling process in the same order, and the same process creation
    and observer calls in the same order.  For one chunk the earlier
    variant writes before it calls the observers, the class after. *)
Theorem variants_differ_in_place_of_writes :
  forall num (N : JsNumber num) executable initialArgs
         (calls : list (EarlierCall num)) silent env pre now code signal,
    forallb streaming pre = true ->
    let events := pre ++ [(now, EvClose code signal)] in
    let earlier :=
      snd (Earlier.runOrRead silent env events
             (earlierChain calls
                (Earlier.constructor executable initialArgs))) in
    let current :=
      snd (runOrRead env events
             (FluentCommand.with_shouldBeSilent silent
                (chain (map sameCall calls) (fcmd executable initialArgs)))) in
    filter isWrite current = filter isWrite earlier
    /\ filter notWrite current = filter notWrite earlier
    /\ (forall o e source chunk,
           let written :=
             if silent then [] else [ProcessWrite source chunk] in
           let called :=
             FluentCommand.callIf (observerOf source (asClass silent o e))
               chunk
               ++ FluentCommand.callIf (Earlier.outputHandler e) chunk in
           snd (Earlier.onData silent source chunk e) = written ++ called
           /\ snd (onChunk source chunk (asClass silent o e))
              = called ++ written).
Proof.
  intros num N executable initialArgs calls silent env pre now code signal
    Hpre events earlier current.
  destruct (@runs_asClass num N executable initialArgs calls silent env pre
              now code signal Hpre) as (_ & Hw & Hn).
  split; [exact Hw|]. split; [exact Hn|].
  intros o e source chunk written called. subst written called.
  earlier_fields e. destruct source, silent; cbn;
    rewrite <- ?app_assoc, ?app_nil_r; auto.
Qed.

Lemma variants_differ_in_place_of_writes_witness :
  let env := {| now := 0; processCwd := lit "/w" |} in
  let events :=
    [(1%Z, EvData Stdout (lit "a"))] ++ [(3%Z, EvClose (Some 0%Z) None)] in
  let earlier :=
    snd (Earlier.runOrRead false env events
           (earlierChain [@ECallOnStdout Z 5]
              (Earlier.constructor (lit "tool") []))) in
  let current :=
    snd (runOrRead env events
           (FluentCommand.with_shouldBeSilent false
              (chain (map sameCall [@ECallOnStdout Z 5])
                 (fcmd (lit "tool") [])))) in
  filter isWrite current = filter isWrite earlier
  /\ filter notWrite current = filter notWrite earlier.
Proof.
  pose proof (variants_differ_in_place_of_writes Z_JsNumber (lit "tool") []
                [ECallOnStdout 5] false
                {| now := 0; processCwd := lit "/w" |}
                [(1%Z, EvData Stdout (lit "a"))] 3%Z (Some 0%Z) None eq_refl)
    as (Hw & Hn & _).
  split; [exact Hw|exact Hn].
Defined.

(** X17.  The [close] listener of the earlier variant assigns the code and
    the signal only when the event has them.  When the process ends with
    another exit code than 0, or by a signal, the outcome is [Err] with
    the code and the signal of the event where it has them, and with what
    the command holds where it has not: nothing for a command not executed
    before, the code or signal of an execution before otherwise. *)
Theorem earlier_close_keeps_what_it_lacks :
  forall silent env this pre now code signal,
    forallb streaming pre = true ->
    code <> Some 0%Z ->
    exists error,
      Earlier.result
        (fst (Earlier.runOrRead silent env
                (pre ++ [(now, EvClose code signal)]) this))
      = Some (Earlier.Err error)
      /\ Earlier.Failure.code error
         = match code with
           | Some c => Some c
           | None => Earlier.code this
           end
      /\ Earlier.Failure.signal error
         = match signal with
           | Some s => Some s
           | None => Earlier.signal this
           end.
Proof.
  intros silent env this pre now code signal Hpre Hcode.
  destruct (@Earlier_runOrRead_streaming silent env pre this Hpre)
    as (Hr & Hc & Hs).
  rewrite Earlier_runOrRead_app, Earlier_deliver_one. cbn [fst].
  destruct (fst (Earlier.runOrRead silent env pre this)) as [that res].
  cbn in Hr, Hc, Hs. subst res. earlier_fields that. cbn in Hc, Hs.
  destruct code as [[|p|p]|], signal as [s|]; try (now destruct Hcode);
    cbn; eexists; (split; [reflexivity|]); cbn; auto.
Qed.

Lemma earlier_close_keeps_what_it_lacks_witness :
  let env := {| now := 0; processCwd := lit "/w" |} in
  let failed :=
    Earlier.this_of
      (fst (Earlier.runOrRead true env [(1%Z, EvClose (Some 1%Z) None)]
              (Earlier.constructor (lit "tool") []))) in
  exists error,
    Earlier.result
      (fst (Earlier.runOrRead true env
              ([] ++ [(2%Z, EvClose None (Some (lit "SIGTERM")))]) failed))
    = Some (Earlier.Err error)
    /\ Earlier.Failure.code error = Some 1%Z
    /\ Earlier.Failure.signal error = Some (lit "SIGTERM").
Proof.
  refine (@earlier_close_keeps_what_it_lacks true
            {| now := 0; processCwd := lit "/w" |}
            (Earlier.this_of
               (fst (Earlier.runOrRead true
                       {| now := 0; processCwd := lit "/w" |}
                       [(1%Z, EvClose (Some 1%Z) None)]
                       (Earlier.constructor (lit "tool") []))))
            [] 2%Z None (Some (lit "SIGTERM")) eq_refl _).
  discriminate.
Defined.

Lemma one_process_per_execution_witness :
  let env := {| now := 0; processCwd := lit "/w" |} in
  let this := FluentCommand.onSpawn 4 (fcmd (lit "tool") [lit "x"]) in
  let info :=
    {| SpawnInfo.executable := lit "tool";
       SpawnInfo.commandArgs := [lit "x"];
       SpawnInfo.cwd := lit "/w" |} in
  In (CallSpawn 4 info) (snd (runOrRead env [(1%Z, EvSpawn)] this))
  /\ FluentCommand.spawnHandler this = Some 4
  /\ info = info.
Proof.
  assert (H : In (CallSpawn 4
                    {| SpawnInfo.executable := lit "tool";
                       SpawnInfo.commandArgs := [lit "x"];
                       SpawnInfo.cwd := lit "/w" |})
                (snd (runOrRead {| now := 0; processCwd := lit "/w" |}
                        [(1%Z, EvSpawn)]
                        (FluentCommand.onSpawn 4
                           (fcmd (lit "tool") [lit "x"])))))
    by (right; left; reflexivity).
  split; [exact H|].
  exact (proj2 (proj2 (one_process_per_execution
                         {| now := 0; processCwd := lit "/w" |}
                         [(1%Z, EvSpawn)]
                         (FluentCommand.onSpawn 4
                            (fcmd (lit "tool") [lit "x"]))))
           4 _ H).
Defined.
